(** * Zig-Env maintenance scripts: [fix_const_var.py] and [fix_tests.py]

    Both scripts read one file, run [re.sub] over its text and write the
    result back.  This development embeds

    - the part of Python's [re] module the three patterns use (literal
      runs, character sets, greedy [+] over a set, ordered alternation,
      capture groups, the left-to-right scan of [re.sub] and its
      replacement templates);
    - the two transformations [fix_const_to_var] and [fix_env_get_calls];
    - the two [__main__] blocks, over a small model of the process
      (arguments, standard output, files with their names, their
      permissions and their text under UTF-8);

    and proves the properties of the specification about them. *)

From Stdlib Require Import NArith ZArith String Ascii Lia.
From stdpp Require Import base option list gmap.

Local Open Scope N_scope.
Local Open Scope list_scope.

(** ** Text *)

(** A Python [str] is a sequence of Unicode code points. *)
Abbreviation char := N (only parsing).
Abbreviation text := (list N) (only parsing).

(** [str "..."] is the text of an ASCII literal. *)
Definition str (s : string) : text :=
  map N_of_ascii (list_ascii_of_string s).
Arguments str s%_string.

Definition dquote : char := 34.
Definition squote : char := 39.
Definition newline : char := 10.

(** A text between double quotes, between single quotes. *)
Definition dq (t : text) : text := dquote :: t ++ [dquote].
Definition sq (t : text) : text := squote :: t ++ [squote].

(** The table that classifies no code point above ASCII as alphanumeric:
    the concrete runs at the end of the file are on ASCII text, where the
    classification of the other code points plays no part. *)
Definition ascii_only : char -> bool := fun _ => false.

(** A standard output that encodes with UTF-8: every code point but the
    surrogates, which stand in [sys.argv] for the bytes of an argument
    that the encoding of the file system cannot decode. *)
Definition utf8_stdout : char -> bool :=
  fun c => negb ((55296 <=? c) && (c <=? 57343)).

(** ** Regular expressions *)

Section Re.

(** [\w] on a [str] pattern is Unicode aware: it accepts [_] and every code
    point the Unicode database classifies as alphanumeric.  On ASCII that
    is [0-9A-Za-z]; above ASCII the database decides, and it is a parameter
    of the development. *)
Context (unicode_alnum : char -> bool).

Definition ascii_alnum (c : char) : bool :=
  ((48 <=? c) && (c <=? 57)) || ((65 <=? c) && (c <=? 90))
  || ((97 <=? c) && (c <=? 122)).

Definition isalnum (c : char) : bool :=
  if c <? 128 then ascii_alnum c else unicode_alnum c.

Definition is_word (c : char) : bool := isalnum c || (c =? 95).

(** Character sets: [x], [\w], [[ab]], [[^a]]. *)
Inductive cset :=
| CChar (c : char)
| CWord
| CUnion (a b : cset)
| CNot (a : cset).

Fixpoint cset_mem (cs : cset) (c : char) : bool :=
  match cs with
  | CChar x => c =? x
  | CWord => is_word c
  | CUnion a b => cset_mem a c || cset_mem b c
  | CNot a => negb (cset_mem a c)
  end.

(** The pattern constructs of the two scripts.  [+] is only ever applied to
    a character set. *)
Inductive regex :=
| RLit (l : text)
| RSet (cs : cset)
| RPlus (cs : cset)
| RSeq (r1 r2 : regex)
| RAlt (r1 r2 : regex)
| RGroup (n : nat) (r : regex).

(** Captured groups, most recent first. *)
Definition caps := list (nat * text).

Fixpoint group (n : nat) (g : caps) : text :=
  match g with
  | [] => []
  | (i, t) :: g' => if Nat.eqb i n then t else group n g'
  end.

Fixpoint strip_prefix (l s : text) : option text :=
  match l, s with
  | [], _ => Some s
  | x :: l', c :: s' => if c =? x then strip_prefix l' s' else None
  | _ :: _, [] => None
  end.

(** The backtracking matcher, in continuation-passing style: [k] is the
    rest of the pattern, and the first success in priority order wins. *)
Section Matcher.
Context {A : Type}.

(** Greedy [+]: take a character of the set, then prefer taking more. *)
Fixpoint m_plus (p : char -> bool) (s : text) (k : text -> option A)
  : option A :=
  match s with
  | [] => None
  | c :: s' =>
      if p c then
        match m_plus p s' k with
        | Some r => Some r
        | None => k s'
        end
      else None
  end.

Fixpoint m (r : regex) (s : text) (g : caps)
    (k : text -> caps -> option A) : option A :=
  match r with
  | RLit l =>
      match strip_prefix l s with
      | Some s' => k s' g
      | None => None
      end
  | RSet cs =>
      match s with
      | c :: s' => if cset_mem cs c then k s' g else None
      | [] => None
      end
  | RPlus cs => m_plus (cset_mem cs) s (fun s' => k s' g)
  | RSeq r1 r2 => m r1 s g (fun s' g' => m r2 s' g' k)
  | RAlt r1 r2 =>
      match m r1 s g k with
      | Some x => Some x
      | None => m r2 s g k
      end
  | RGroup n r =>
      m r s g (fun s' g' =>
        k s' ((n, take (length s - length s') s) :: g'))
  end.
End Matcher.

(** [pattern.match(s)]: the groups and the text left after the match. *)
Definition re_match (r : regex) (s : text) : option (caps * text) :=
  m r s [] (fun s' g => Some (g, s')).

(** Replacement templates: literal text and group references [\n]. *)
Inductive titem :=
| TLit (l : text)
| TRef (n : nat).

Definition template := list titem.

Fixpoint expand (tpl : template) (g : caps) : text :=
  match tpl with
  | [] => []
  | TLit l :: tpl' => l ++ expand tpl' g
  | TRef n :: tpl' => group n g ++ expand tpl' g
  end.

(** [re.sub(pattern, repl, s)]: scan left to right; at each position try
    the pattern; a match is replaced and the scan resumes after it,
    otherwise the character is copied.  An empty match is replaced and the
    scan moves on by one character.  The recursion is on a counter that
    starts above the length of the text. *)
Fixpoint sub_scan (r : regex) (tpl : template) (n : nat) (s : text) : text :=
  match n with
  | O => s
  | S n' =>
      let step :=
        match s with
        | [] => []
        | c :: s' => c :: sub_scan r tpl n' s'
        end in
      match re_match r s with
      | Some (g, rest) =>
          expand tpl g ++
          (if Nat.ltb (length rest) (length s)
           then sub_scan r tpl n' rest else step)
      | None => step
      end
  end.

Definition re_sub (r : regex) (tpl : template) (s : text) : text :=
  sub_scan r tpl (S (length s)) s.

(** ** The patterns of the scripts *)

Declare Scope re_scope.
Delimit Scope re_scope with re.
Bind Scope re_scope with regex.
Infix "⋅" := RSeq (at level 45, right associativity) : re_scope.
Infix "∥" := RAlt (at level 55, right associativity) : re_scope.

(** [fix_const_var.py]: [r'const env = try'] -> [r'var env = try']. *)
Definition const_env_pat : regex := RLit (str "const env = try").
Definition var_env_tpl : template := [TLit (str "var env = try")].

(** The key alternatives [(D[^D]+D|'[^']+'|[\w_]+)] without the group
    around them; [D] stands for the double-quote character. *)
Definition key_pat : regex :=
  (RLit [dquote] ⋅ RPlus (CNot (CChar dquote)) ⋅ RLit [dquote]
   ∥ RLit [squote] ⋅ RPlus (CNot (CChar squote)) ⋅ RLit [squote]
   ∥ RPlus (CUnion CWord (CChar 95)))%re.

(** [fix_tests.py], pattern 1:
    [r'const (\w+) = try env\.get\((D[^D]+D|\'[^\']+\'|[\w_]+)\)'] ->
    [r'const \1 = env.get(\2).?']. *)
Definition bound_pat : regex :=
  (RLit (str "const ") ⋅ RGroup 1 (RPlus CWord)
   ⋅ RLit (str " = try env.get(") ⋅ RGroup 2 key_pat ⋅ RLit (str ")"))%re.
Definition bound_tpl : template :=
  [TLit (str "const "); TRef 1; TLit (str " = env.get("); TRef 2;
   TLit (str ").?")].

(** [fix_tests.py], pattern 2:
    [r'_ = try env\.get\((D[^D]+D|\'[^\']+\'|[\w_]+)\)'] ->
    [r'_ = env.get(\1).?']. *)
Definition discard_pat : regex :=
  (RLit (str "_ = try env.get(") ⋅ RGroup 1 key_pat ⋅ RLit (str ")"))%re.
Definition discard_tpl : template :=
  [TLit (str "_ = env.get("); TRef 1; TLit (str ").?")].

(** ** The transformations *)

Definition fix_const_to_var (content : text) : text :=
  re_sub const_env_pat var_env_tpl content.

Definition fix_env_get_calls (content : text) : text :=
  let content := re_sub bound_pat bound_tpl content in
  let content := re_sub discard_pat discard_tpl content in
  content.

(** ** The process around a transformation *)

(** The encoding of standard output depends on the environment of the
    process: [stdout_encodes] tells which code points above ASCII it can
    encode (ASCII it always can). *)
Context (stdout_encodes : char -> bool).

(** The scripts open a file in text mode with [encoding='utf-8'].
    [f_text] is the text a [read] of the file returns; it is [None] where
    the bytes of the file are not valid UTF-8, and [read] raises
    [UnicodeDecodeError].  A [write] of a text leaves a file that reads as
    that text: a text that was read holds no surrogate and no carriage
    return, and the scripts add ASCII letters and signs only.
    [f_readable] and [f_writable] are the two permissions [open]
    checks. *)
Record file := File {
  f_text : option text;
  f_readable : bool;
  f_writable : bool
}.

Inductive exn :=
| FileNotFoundError
| PermissionError
| UnicodeDecodeError
| UnicodeEncodeError.

(** Every call of [open] is logged, whether it succeeds or not. *)
Inductive access :=
| OpenRead (p : text)
| OpenWrite (p : text).

(** Files are told apart by a number.  A path is a name of a file: two
    spellings of a path, or two links, can name the same file, and what
    is written through one name is read through the others. *)
Abbreviation inode := positive (only parsing).

Record world := World {
  w_names : gmap text inode;
  w_files : gmap inode file;
  w_stdout : list text;
  w_log : list access
}.

(** The file a path leads to. *)
Definition file_at (w : world) (p : text) : option file :=
  i ← w_names w !! p; w_files w !! i.

(** A statement returns, leaves through [sys.exit] or raises. *)
Inductive result (A : Type) :=
| Ret (a : A)
| SystemExit (code : Z)
| Raise (e : exn).
Global Arguments Ret {A} a.
Global Arguments SystemExit {A} code.
Global Arguments Raise {A} e.

Definition io (A : Type) : Type := world -> result A * world.

Global Instance io_ret : MRet io := fun A a w => (Ret a, w).
Global Instance io_bind : MBind io := fun A B k c w =>
  match c w with
  | (Ret a, w') => k a w'
  | (SystemExit code, w') => (SystemExit code, w')
  | (Raise e, w') => (Raise e, w')
  end.

(** What standard output can encode. *)
Definition encodable (line : text) : bool :=
  forallb (λ c, (c <? 128) || stdout_encodes c) line.

(** [print(line)]: the line is encoded as a whole before any of it is
    written. *)
Definition print (line : text) : io unit := fun w =>
  if encodable line then
    (Ret tt, World (w_names w) (w_files w) (w_stdout w ++ [line]) (w_log w))
  else (Raise UnicodeEncodeError, w).

(** [sys.exit(code)] *)
Definition sys_exit (code : Z) : io unit := fun w => (SystemExit code, w).

(** [with open(p, 'r', encoding='utf-8') as f: content = f.read()]: [open]
    fails on a path that leads to no file and on a file that may not be
    read, [read] on bytes that are not valid UTF-8. *)
Definition read_file (p : text) : io text := fun w =>
  let w' :=
    World (w_names w) (w_files w) (w_stdout w) (w_log w ++ [OpenRead p]) in
  match file_at w p with
  | None => (Raise FileNotFoundError, w')
  | Some f =>
      if f_readable f then
        match f_text f with
        | Some t => (Ret t, w')
        | None => (Raise UnicodeDecodeError, w')
        end
      else (Raise PermissionError, w')
  end.

(** [with open(p, 'w', encoding='utf-8') as f: f.write(t)]: a file that
    may be written is truncated and rewritten, under all its names; a
    path that is no name yet becomes the name of a new file. *)
Definition write_file (p : text) (t : text) : io unit := fun w =>
  let log := w_log w ++ [OpenWrite p] in
  match w_names w !! p with
  | None =>
      let i := fresh (dom (w_files w) ∪ map_img (w_names w)) in
      (Ret tt,
       World (<[p := i]> (w_names w))
             (<[i := File (Some t) true true]> (w_files w))
             (w_stdout w) log)
  | Some i =>
      match w_files w !! i with
      | None =>
          (Ret tt,
           World (w_names w) (<[i := File (Some t) true true]> (w_files w))
                 (w_stdout w) log)
      | Some f =>
          if f_writable f then
            (Ret tt,
             World (w_names w)
                   (<[i := File (Some t) (f_readable f) true]> (w_files w))
                   (w_stdout w) log)
          else
            (Raise PermissionError,
             World (w_names w) (w_files w) (w_stdout w) log)
      end
  end.

(** The [__main__] block of [fix_const_var.py]. *)
Definition fix_const_var_main (argv : list text) : io unit :=
  (if negb (Nat.eqb (length argv) 2) then
     print (str "Usage: python fix_const_var.py <file>");;
     sys_exit 1
   else mret tt);;
  let filepath := nth 1 argv [] in
  content ← read_file filepath;
  let fixed_content := fix_const_to_var content in
  write_file filepath fixed_content;;
  print (str "Fixed " ++ filepath).

(** The [__main__] block of [fix_tests.py]. *)
Definition fix_tests_main (argv : list text) : io unit :=
  (if negb (Nat.eqb (length argv) 2) then
     print (str "Usage: python fix_tests.py <file>");;
     sys_exit 1
   else mret tt);;
  let filepath := nth 1 argv [] in
  content ← read_file filepath;
  let fixed_content := fix_env_get_calls content in
  write_file filepath fixed_content;;
  print (str "Fixed " ++ filepath).

(** The exit status of the interpreter: [0] when the script runs to its
    end, the argument of [sys.exit], [1] for an uncaught exception. *)
Definition exit_status {A} (r : result A) : Z :=
  match r with
  | Ret _ => 0
  | SystemExit code => code
  | Raise _ => 1
  end.

Definition run (prog : io unit) (w : world) : Z * world :=
  let (r, w') := prog w in (exit_status r, w').

(** ** Definitions for the statements and the proofs *)

(** [re.search]: the first position where the pattern matches. *)
Fixpoint re_search (r : regex) (s : text) : option (caps * text) :=
  match re_match r s with
  | Some x => Some x
  | None =>
      match s with
      | [] => None
      | _ :: s' => re_search r s'
      end
  end.

(** [occurs l s]: the text [l] occurs somewhere in [s]. *)
Definition occurs (l s : text) : Prop := ∃ pre post, s = pre ++ l ++ post.

(** The longest prefix of [s] made of [p] characters, and what follows
    it. *)
Fixpoint take_while (p : char -> bool) (s : text) : text :=
  match s with
  | c :: s' => if p c then c :: take_while p s' else []
  | [] => []
  end.

Fixpoint drop_while (p : char -> bool) (s : text) : text :=
  match s with
  | c :: s' => if p c then drop_while p s' else s
  | [] => []
  end.

(** The two quote characters of the key alternatives. *)
Definition is_quote (c : char) : bool := (c =? dquote) || (c =? squote).

(** An identifier in the sense of [\w+]. *)
Definition ident (w : text) : Prop :=
  w ≠ [] ∧ Forall (λ c, is_word c = true) w.

(** The keys the patterns accept: a quoted text with a non-empty body free
    of its own quote character, or a run of word characters. *)
Inductive key_shape : text -> Prop :=
| key_quoted q body :
    is_quote q = true -> body ≠ [] -> q ∉ body ->
    key_shape (q :: body ++ [q])
| key_bare w : ident w -> key_shape w.

(** The marker both patterns of [fix_tests.py] share, and what the
    templates put in its place. *)
Definition try_call : text := str " = try env.get(".
Definition plain_call : text := str " = env.get(".

(** A quoted key: the opening quote, the longest run of other characters
    (at least one), the closing quote. *)
Definition quoted_at (q : char) (s : text) : option (text * text) :=
  match s with
  | c :: t =>
      if c =? q then
        match take_while (λ x, negb (x =? q)) t,
              drop_while (λ x, negb (x =? q)) t with
        | (_ :: _) as body, _ :: r => Some (q :: body ++ [q], r)
        | _, _ => None
        end
      else None
  | [] => None
  end.

(** A bare key: the longest run of word characters (at least one). *)
Definition bare_at (s : text) : option (text * text) :=
  match take_while is_word s with
  | [] => None
  | (_ :: _) as w => Some (w, drop_while is_word s)
  end.

(** The key alternatives, in the order of the pattern. *)
Definition key_at (s : text) : option (text * text) :=
  match s with
  | c :: _ =>
      if c =? dquote then quoted_at dquote s
      else if c =? squote then quoted_at squote s
      else bare_at s
  | [] => None
  end.

(** The key alternatives followed by the closing parenthesis: the key and
    the text after the parenthesis. *)
Definition key_close (s : text) : option (text * text) :=
  '(key, r) ← key_at s;
  r' ← strip_prefix (str ")") r;
  Some (key, r').

(** The marker, a key and the closing parenthesis at the head of [s]. *)
Definition call_at (s : text) : option (text * text) :=
  s' ← strip_prefix try_call s; key_close s'.

(** What [bound_pat] accepts at the head of [s]: identifier, key, rest. *)
Definition bound_at (s : text) : option (text * text * text) :=
  s1 ← strip_prefix (str "const ") s;
  match take_while is_word s1 with
  | [] => None
  | (_ :: _) as id =>
      '(key, r) ← call_at (drop_while is_word s1); Some (id, key, r)
  end.

(** What [discard_pat] accepts at the head of [s]: key, rest. *)
Definition discard_at (s : text) : option (text * text) :=
  s1 ← strip_prefix (str "_") s; call_at s1.

(** The three substitutions of the scripts. *)
Definition sub_const : text -> text := re_sub const_env_pat var_env_tpl.
Definition sub_bound : text -> text := re_sub bound_pat bound_tpl.
Definition sub_discard : text -> text := re_sub discard_pat discard_tpl.

(** Both templates differ from what their pattern matched in two places:
    the marker loses [try], and [.?] follows the closing parenthesis.
    [rewrites s t]: [t] is [s] after some edits of these two kinds. *)
Inductive rewrites : text -> text -> Prop :=
| rw_nil : rewrites [] []
| rw_copy c s t : rewrites s t -> rewrites (c :: s) (c :: t)
| rw_try s t : rewrites s t -> rewrites (try_call ++ s) (plain_call ++ t)
| rw_unwrap s t : rewrites s t -> rewrites (str ")" ++ s) (str ").?" ++ t).

(** [inert_before f u v]: no match of [f] starts inside [u] when [v]
    follows; [inert f u]: none starts inside [u] whatever follows. *)
Definition inert_before {A} (f : text -> option A) (u v : text) : Prop :=
  ∀ u1 u2 x, u = u1 ++ u2 -> u2 ≠ [] -> f (u2 ++ v ++ x) = None.

Definition inert {A} (f : text -> option A) (u : text) : Prop :=
  ∀ u1 u2 x, u = u1 ++ u2 -> u2 ≠ [] -> f (u2 ++ x) = None.

(** [quiet f s]: [f] matches at no position of [s]. *)
Definition quiet {A} (f : text -> option A) (s : text) : Prop :=
  ∀ pre y, s = pre ++ y -> f y = None.

(** [starter f c0]: a match of [f] starts with the character [c0]. *)
Definition starter {A} (f : text -> option A) (c0 : char) : Prop :=
  ∀ c z, c ≠ c0 -> f (c :: z) = None.

(** [opens f]: a match of [f] starts with word characters and spaces
    followed by the marker. *)
Definition opens {A} (f : text -> option A) : Prop :=
  ∀ s, is_Some (f s) ->
    ∃ h z, s = h ++ try_call ++ z ∧ Forall (λ c, is_word c = true ∨ c = 32) h.

(** The replacement of a match of [bound_pat]. *)
Definition bound_out (id key : text) : text :=
  str "const " ++ id ++ plain_call ++ key ++ str ").?".

(** The replacement of a match of [discard_pat]. *)
Definition discard_out (key : text) : text :=
  str "_" ++ plain_call ++ key ++ str ").?".

(** The text a match of [discard_pat] covers. *)
Definition discard_in (key : text) : text :=
  str "_" ++ try_call ++ key ++ str ")".

(** [keys_clean s]: no quoted text that follows the marker in [s]
    contains the marker again. *)
Definition keys_clean (s : text) : Prop :=
  ∀ pre q body post,
    s = pre ++ try_call ++ q :: body ++ q :: post ->
    is_quote q = true -> q ∉ body -> ¬ occurs try_call body.

(** [open_key a]: [a] ends inside a quoted text that follows the marker. *)
Definition open_key (a : text) : Prop :=
  ∃ pre q body,
    a = pre ++ try_call ++ q :: body ∧ is_quote q = true ∧ q ∉ body.

(** [contains l s]: [l] occurs in [s], the decidable form of [occurs]. *)
Fixpoint contains (l s : text) : bool :=
  match strip_prefix l s with
  | Some _ => true
  | None =>
      match s with
      | [] => false
      | _ :: s' => contains l s'
      end
  end.

(** A non-empty run of word characters: the decidable form of [ident]. *)
Definition is_ident (w : text) : bool :=
  match w with
  | [] => false
  | _ :: _ => forallb is_word w
  end.

(** A key the patterns accept: the decidable form of [key_shape]. *)
Definition is_key (k : text) : bool :=
  match k with
  | [] => false
  | q :: t =>
      if is_quote q then
        match take_while (λ c, negb (c =? q)) t,
              drop_while (λ c, negb (c =? q)) t with
        | _ :: _, [_] => true
        | _, _ => false
        end
      else is_ident k
  end.

(** The quoted text that follows the marker at the head of [y], when it is
    closed, does not contain the marker. *)
Definition key_clean_here (y : text) : bool :=
  match strip_prefix try_call y with
  | Some (q :: t) =>
      if is_quote q then
        match drop_while (λ c, negb (c =? q)) t with
        | [] => true
        | _ :: _ =>
            negb (contains try_call (take_while (λ c, negb (c =? q)) t))
        end
      else true
  | _ => true
  end.

(** No quoted text that follows the marker in [s] contains the marker
    again: the decidable form of [keys_clean]. *)
Fixpoint keys_cleanb (s : text) : bool :=
  key_clean_here s &&
  match s with
  | [] => true
  | _ :: s' => keys_cleanb s'
  end.

(** The quoted text that follows the marker at the head of [y] is not
    closed. *)
Definition key_open_here (y : text) : bool :=
  match strip_prefix try_call y with
  | Some (q :: t) =>
      is_quote q &&
      match drop_while (λ c, negb (c =? q)) t with
      | [] => true
      | _ :: _ => false
      end
  | _ => false
  end.

(** The text ends inside a quoted text that follows the marker: the
    decidable form of [open_key]. *)
Fixpoint ends_in_key (a : text) : bool :=
  key_open_here a ||
  match a with
  | [] => false
  | _ :: a' => ends_in_key a'
  end.

(** The number of occurrences of the character [c] in [s]. *)
Fixpoint count_char (c : char) (s : text) : nat :=
  match s with
  | [] => 0
  | d :: s' => (if d =? c then 1 else 0) + count_char c s'
  end.

(** [bound_head_end a]: [a] ends with [const ] and a run of word
    characters, the start of a bound form. *)
Definition bound_head_end (a : text) : Prop :=
  ∃ pre w, a = pre ++ str "const " ++ w ∧ Forall (λ c, is_word c = true) w.

(** The decidable form of [bound_head_end]. *)
Definition ends_bound_head (a : text) : bool :=
  match strip_prefix (rev (str "const ")) (drop_while is_word (rev a)) with
  | Some _ => true
  | None => false
  end.

(** What a script does, by cases on its arguments, on the file they name
    and on what standard output can encode: the exit status and the world
    it leaves. *)
Definition script_outcome (usage : text) (fix_text : text -> text)
    (argv : list text) (w : world) : Z * world :=
  if negb (Nat.eqb (length argv) 2) then
    (1%Z, World (w_names w) (w_files w) (w_stdout w ++ [usage]) (w_log w))
  else
    let p := nth 1 argv [] in
    let stop_at_read :=
      (1%Z, World (w_names w) (w_files w) (w_stdout w)
              (w_log w ++ [OpenRead p])) in
    match w_names w !! p with
    | None => stop_at_read
    | Some i =>
        match w_files w !! i with
        | None => stop_at_read
        | Some f =>
            if f_readable f then
              match f_text f with
              | None => stop_at_read
              | Some content =>
                  if f_writable f then
                    if encodable (str "Fixed " ++ p) then
                      (0%Z,
                       World (w_names w)
                             (<[i := File (Some (fix_text content)) true true]>
                                (w_files w))
                             (w_stdout w ++ [str "Fixed " ++ p])
                             (w_log w ++ [OpenRead p; OpenWrite p]))
                    else
                      (1%Z,
                       World (w_names w)
                             (<[i := File (Some (fix_text content)) true true]>
                                (w_files w))
                             (w_stdout w)
                             (w_log w ++ [OpenRead p; OpenWrite p]))
                  else
                    (1%Z, World (w_names w) (w_files w) (w_stdout w)
                            (w_log w ++ [OpenRead p; OpenWrite p]))
              end
            else stop_at_read
        end
    end.

(** The arguments name one file, it can be read and written, and its
    bytes are the UTF-8 form of [content]; [i] is the number of the
    file. *)
Definition rewritable (argv : list text) (w : world)
    (i : inode) (content : text) : Prop :=
  length argv = 2%nat
  ∧ w_names w !! nth 1 argv [] = Some i
  ∧ ∃ f, w_files w !! i = Some f
         ∧ f_readable f = true ∧ f_text f = Some content
         ∧ f_writable f = true.

(** ** Literals and character classes *)

Ltac unstr :=
  repeat match goal with
  | |- context [str ?l] =>
      let v := eval vm_compute in (str l) in change (str l) with v
  | H : context [str ?l] |- _ =>
      let v := eval vm_compute in (str l) in change (str l) with v in H
  end.

Ltac unlit :=
  unfold try_call, plain_call, dquote, squote, newline in *; unstr.

Ltac unlit_goal :=
  unfold try_call, plain_call, dquote, squote, newline;
  repeat match goal with
  | |- context [str ?l] =>
      let v := eval vm_compute in (str l) in change (str l) with v
  end;
  cbn [app].

Lemma strip_prefix_app l s : strip_prefix l (l ++ s) = Some s.
Proof. induction l as [|x l IH]; simpl; [done|]. by rewrite N.eqb_refl. Qed.

Lemma strip_prefix_Some l s s' : strip_prefix l s = Some s' -> s = l ++ s'.
Proof.
  revert s. induction l as [|x l IH]; intros [|c s]; simpl; try congruence.
  destruct (N.eqb_spec c x); [|done]. intros ?%IH. by subst.
Qed.

Lemma take_drop_while p s : take_while p s ++ drop_while p s = s.
Proof. induction s as [|c s IH]; simpl; [done|]. destruct (p c); simpl; congruence. Qed.

Lemma take_while_Forall p s : Forall (λ c, p c = true) (take_while p s).
Proof.
  induction s as [|c s IH]; simpl; [constructor|].
  destruct (p c) eqn:E; constructor; done.
Qed.

(** A run of [p] characters followed by a non-[p] character (or the end)
    is what [take_while] returns. *)
Lemma take_while_app p w s :
  Forall (λ c, p c = true) w ->
  match s with c :: _ => p c = false | [] => True end ->
  take_while p (w ++ s) = w ∧ drop_while p (w ++ s) = s.
Proof.
  intros Hw Hs. induction Hw as [|c w Hc _ IH]; simpl.
  - destruct s as [|c s]; simpl; [done|]. by rewrite Hs.
  - rewrite Hc. destruct IH as [-> ->]. done.
Qed.

Lemma drop_while_head p s :
  match drop_while p s with c :: _ => p c = false | [] => True end.
Proof.
  induction s as [|c s IH]; simpl; [done|]. destruct (p c) eqn:E; [done|].
  simpl. done.
Qed.

Lemma is_quote_spec q : is_quote q = true <-> q = dquote ∨ q = squote.
Proof. unfold is_quote. rewrite orb_true_iff, !N.eqb_eq. done. Qed.

Lemma word_not_quote c : is_word c = true -> is_quote c = false.
Proof.
  intros H. destruct (is_quote c) eqn:E; [|done].
  apply is_quote_spec in E as [-> | ->]; discriminate H.
Qed.

(** ** The matcher on the patterns of the scripts *)

(** Greedy [+] is deterministic when what follows cannot start with a
    character of the set: only the longest run can succeed. *)
Lemma m_plus_greedy {A} p s (k : text -> option A) :
  (∀ c t, p c = true -> k (c :: t) = None) ->
  m_plus p s k =
    match take_while p s with
    | [] => None
    | _ :: _ => k (drop_while p s)
    end.
Proof.
  intros Hk. induction s as [|c s IH]; simpl; [done|].
  destruct (p c) eqn:Hc; [|done]. rewrite IH.
  pose proof (take_drop_while p s) as Hs.
  pose proof (take_while_Forall p s) as Hw.
  destruct (take_while p s) as [|d w]; simpl in Hs.
  - by rewrite Hs.
  - destruct (k (drop_while p s)) eqn:E; [done|].
    rewrite <- Hs. apply Hk. by inversion Hw.
Qed.

Lemma take_app_minus (a r : text) :
  take (length (a ++ r) - length r) (a ++ r) = a.
Proof.
  rewrite length_app.
  replace (length a + length r - length r)%nat with (length a) by lia.
  by rewrite take_app_length.
Qed.

Lemma m_quoted {A} q s g (k : text -> caps -> option A) :
  m (RLit [q] ⋅ RPlus (CNot (CChar q)) ⋅ RLit [q]) s g k =
    '(_, r) ← quoted_at q s; k r g.
Proof.
  simpl. destruct s as [|c t]; [done|]. simpl.
  destruct (c =? q) eqn:Hc; [|done].
  rewrite m_plus_greedy.
  - pose proof (drop_while_head (λ x, negb (x =? q)) t) as Hd.
    destruct (take_while _ t); [done|].
    destruct (drop_while _ t) as [|d r]; [done|]. simpl.
    apply negb_false_iff in Hd. by rewrite Hd.
  - intros d r Hd. simpl. apply negb_true_iff in Hd. by rewrite Hd.
Qed.

Lemma quoted_at_split q s key r :
  quoted_at q s = Some (key, r) -> s = key ++ r.
Proof.
  unfold quoted_at. destruct s as [|c t]; [done|].
  destruct (N.eqb_spec c q) as [->|]; [|done].
  pose proof (take_drop_while (λ x, negb (x =? q)) t) as Ht.
  pose proof (drop_while_head (λ x, negb (x =? q)) t) as Hd.
  destruct (take_while _ t) as [|b body]; [done|].
  destruct (drop_while _ t) as [|d r']; [done|].
  intros [= <- <-]. apply negb_false_iff, N.eqb_eq in Hd as ->.
  rewrite <- Ht. simpl. by rewrite <- !app_assoc.
Qed.

Lemma bare_at_split s key r : bare_at s = Some (key, r) -> s = key ++ r.
Proof.
  unfold bare_at. pose proof (take_drop_while is_word s) as Hs.
  destruct (take_while is_word s); [done|]. intros [= <- <-]. done.
Qed.

Lemma take_while_ext p p' s :
  (∀ c, p c = p' c) -> take_while p s = take_while p' s.
Proof. intros E. induction s as [|c s IH]; simpl; [done|]. by rewrite E, IH. Qed.

Lemma drop_while_ext p p' s :
  (∀ c, p c = p' c) -> drop_while p s = drop_while p' s.
Proof. intros E. induction s as [|c s IH]; simpl; [done|]. by rewrite E, IH. Qed.

Lemma word_or_underscore c : is_word c || (c =? 95) = is_word c.
Proof. unfold is_word. by destruct (isalnum c), (c =? 95). Qed.

Lemma m_bare {A} s g (k : text -> caps -> option A) :
  (∀ c t, is_word c = true -> k (c :: t) g = None) ->
  m (RPlus (CUnion CWord (CChar 95))) s g k = '(_, r) ← bare_at s; k r g.
Proof.
  intros Hk. simpl. rewrite m_plus_greedy.
  - unfold bare_at.
    rewrite (take_while_ext _ is_word), (drop_while_ext _ is_word)
      by apply word_or_underscore.
    by destruct (take_while is_word s).
  - intros c t Hc. apply Hk. by rewrite <- word_or_underscore.
Qed.

Lemma bare_at_not_word c t : is_word c = false -> bare_at (c :: t) = None.
Proof. intros H. unfold bare_at. simpl. by rewrite H. Qed.

Lemma quoted_at_other q c t : c ≠ q -> quoted_at q (c :: t) = None.
Proof. intros H. simpl. by destruct (N.eqb_spec c q). Qed.

Lemma m_key_pat {A} s g (k : text -> caps -> option A) :
  (∀ c t, is_word c = true -> k (c :: t) g = None) ->
  m key_pat s g k = '(_, r) ← key_at s; k r g.
Proof.
  intros Hk. unfold key_pat, key_at.
  change (m (?a ∥ ?b ∥ ?c) s g k) with
    (match m a s g k with
     | Some x => Some x
     | None => match m b s g k with Some x => Some x | None => m c s g k end
     end).
  rewrite !m_quoted, (m_bare _ _ _ Hk).
  destruct s as [|c t]; [done|].
  destruct (N.eqb_spec c dquote) as [->|Hd].
  { rewrite (quoted_at_other squote), bare_at_not_word by done.
    by destruct (quoted_at dquote _ ≫= _). }
  rewrite (quoted_at_other dquote) by done.
  destruct (N.eqb_spec c squote) as [->|Hs].
  { rewrite bare_at_not_word by done. by destruct (quoted_at squote _ ≫= _). }
  by rewrite (quoted_at_other squote) by done.
Qed.

Lemma key_at_split s key r : key_at s = Some (key, r) -> s = key ++ r.
Proof.
  unfold key_at. destruct s as [|c t]; [done|].
  destruct (c =? dquote); [apply quoted_at_split|].
  destruct (c =? squote); [apply quoted_at_split|apply bare_at_split].
Qed.

Lemma m_key {A} n s g (k : text -> caps -> option A) :
  m (RGroup n key_pat ⋅ RLit (str ")")) s g k =
    '(key, r) ← key_close s; k r ((n, key) :: g).
Proof.
  change (m (RGroup n key_pat ⋅ ?b) s g k) with
    (m key_pat s g (λ s' g',
       m b s' ((n, take (length s - length s') s) :: g') k)).
  rewrite m_key_pat.
  2:{ intros c t Hc. unstr. simpl.
      destruct (N.eqb_spec c 41) as [->|]; [|done]. by vm_compute in Hc. }
  unfold key_close. destruct (key_at s) as [[key r]|] eqn:E; [|done].
  apply key_at_split in E as ->. cbn [mbind option_bind m].
  rewrite take_app_minus. by destruct (strip_prefix _ r).
Qed.

Lemma strip_prefix_cat a b s :
  strip_prefix (a ++ b) s = s' ← strip_prefix a s; strip_prefix b s'.
Proof.
  revert s. induction a as [|x a IH]; intros s; simpl; [done|].
  destruct s as [|c s]; [done|]. by destruct (c =? x).
Qed.

Lemma m_call {A} n s g (k : text -> caps -> option A) :
  m (RLit try_call ⋅ RGroup n key_pat ⋅ RLit (str ")")) s g k =
    '(key, r) ← call_at s; k r ((n, key) :: g).
Proof.
  change (m (RLit ?l ⋅ ?b) s g k) with
    (match strip_prefix l s with Some s' => m b s' g k | None => None end).
  unfold call_at. destruct (strip_prefix try_call s); [|done]. apply m_key.
Qed.

Lemma re_match_bound s :
  re_match bound_pat s =
    (λ '(id, key, r), ([(2%nat, key); (1%nat, id)], r)) <$> bound_at s.
Proof.
  unfold re_match, bound_pat, bound_at.
  change (m (RLit ?l ⋅ ?b) s ?g ?k) with
    (match strip_prefix l s with Some s' => m b s' g k | None => None end).
  destruct (strip_prefix _ s) as [s1|]; [|done]. cbn [mbind option_bind].
  change (m (RGroup 1 (RPlus CWord) ⋅ ?b) s1 [] ?k) with
    (m_plus is_word s1 (λ s',
       m b s' [(1%nat, take (length s1 - length s') s1)] k)).
  rewrite m_plus_greedy.
  2:{ intros c t Hc. unlit. simpl.
      destruct (N.eqb_spec c 32) as [->|]; [|done]. by vm_compute in Hc. }
  pose proof (take_drop_while is_word s1) as Hs.
  destruct (take_while is_word s1) as [|c w]; [done|].
  change (RLit (str " = try env.get(")) with (RLit try_call).
  rewrite m_call.
  assert (take (length s1 - length (drop_while is_word s1)) s1 = c :: w)
    as ->.
  { set (d := drop_while is_word s1) in *. rewrite <- Hs.
    apply take_app_minus. }
  by destruct (call_at _) as [[key r]|].
Qed.

Lemma re_match_discard s :
  re_match discard_pat s = (λ '(key, r), ([(1%nat, key)], r)) <$> discard_at s.
Proof.
  unfold re_match, discard_pat, discard_at.
  change (str "_ = try env.get(") with (str "_" ++ try_call).
  change (m (RLit (?a ++ ?b) ⋅ ?c) s ?g ?k) with
    (match strip_prefix (a ++ b) s with
     | Some s' => m c s' g k | None => None end).
  rewrite strip_prefix_cat.
  destruct (strip_prefix (str "_") s) as [s1|]; [|done].
  cbn [mbind option_bind].
  pose proof (m_call 1 s1 [] (λ s' g', Some (g', s'))) as Hm.
  change (m (RLit ?l ⋅ ?b) s1 ?g ?k) with
    (match strip_prefix l s1 with Some s' => m b s' g k | None => None end)
    in Hm.
  rewrite Hm. by destruct (call_at s1) as [[key r]|].
Qed.

(** ** Matches as shapes of text *)

Lemma not_elem_Forall q (b : text) :
  q ∉ b <-> Forall (λ c, negb (c =? q) = true) b.
Proof.
  rewrite Forall_forall. split.
  - intros Hq c Hc. apply negb_true_iff, N.eqb_neq. by intros ->.
  - intros H Hq. apply H in Hq. by rewrite N.eqb_refl in Hq.
Qed.

Lemma quoted_at_Some q s key r :
  quoted_at q s = Some (key, r) ->
  ∃ body, key = q :: body ++ [q] ∧ body ≠ [] ∧ (q ∉ body) ∧ s = key ++ r.
Proof.
  intros E. pose proof (quoted_at_split _ _ _ _ E) as Hs.
  unfold quoted_at in E. destruct s as [|c t]; [done|].
  destruct (c =? q); [|done].
  pose proof (take_while_Forall (λ x, negb (x =? q)) t) as Hb.
  destruct (take_while _ t) as [|b body]; [done|].
  destruct (drop_while _ t) as [|d r']; [done|].
  injection E as <- <-. exists (b :: body).
  by rewrite not_elem_Forall.
Qed.

Lemma quoted_at_intro q body r :
  body ≠ [] -> q ∉ body ->
  quoted_at q (q :: body ++ q :: r) = Some (q :: body ++ [q], r).
Proof.
  intros Hne Hq. unfold quoted_at. rewrite N.eqb_refl.
  destruct (take_while_app (λ x, negb (x =? q)) body (q :: r)) as [-> ->].
  - by apply not_elem_Forall.
  - by rewrite N.eqb_refl.
  - by destruct body.
Qed.

Lemma bare_at_Some s key r :
  bare_at s = Some (key, r) -> ident key ∧ s = key ++ r.
Proof.
  intros E. pose proof (bare_at_split _ _ _ E) as Hs. unfold bare_at in E.
  pose proof (take_while_Forall is_word s) as Hw.
  destruct (take_while is_word s) as [|c w]; [done|].
  injection E as <- <-. by repeat split.
Qed.

Lemma bare_at_intro w r :
  ident w -> match r with c :: _ => is_word c = false | [] => True end ->
  bare_at (w ++ r) = Some (w, r).
Proof.
  intros [Hne Hw] Hr. unfold bare_at.
  destruct (take_while_app is_word w r) as [-> ->]; [done..|].
  by destruct w.
Qed.

Lemma key_close_shape s key r :
  key_close s = Some (key, r) <-> key_shape key ∧ s = key ++ str ")" ++ r.
Proof.
  unfold key_close. split.
  - destruct (key_at s) as [[key' r0]|] eqn:E; [|done].
    cbn [mbind option_bind].
    destruct (strip_prefix _ r0) as [r'|] eqn:Er; [|done].
    intros [= <- <-]. apply strip_prefix_Some in Er as ->.
    unfold key_at in E. destruct s as [|c t]; [done|].
    destruct (N.eqb_spec c dquote) as [->|].
    { apply quoted_at_Some in E as (body & -> & ? & ? & ->).
      split; [by constructor|done]. }
    destruct (N.eqb_spec c squote) as [->|].
    { apply quoted_at_Some in E as (body & -> & ? & ? & ->).
      split; [by constructor|done]. }
    apply bare_at_Some in E as [? ->]. split; [by constructor|done].
  - intros [Hk ->]. destruct Hk as [q body Hq Hne Hb|w Hw].
    + replace ((q :: body ++ [q]) ++ str ")" ++ r)
        with (q :: body ++ q :: str ")" ++ r)
        by (simpl; by rewrite <- app_assoc).
      unfold key_at. apply is_quote_spec in Hq as [-> | ->].
      * rewrite N.eqb_refl, quoted_at_intro by done.
        cbn [mbind option_bind]. by rewrite strip_prefix_app.
      * change (squote =? dquote) with false. cbv iota.
        rewrite N.eqb_refl, quoted_at_intro by done.
        cbn [mbind option_bind]. by rewrite strip_prefix_app.
    + pose proof Hw as [Hne Hall]. destruct w as [|c w]; [done|].
      inversion Hall as [|? ? Hc _]; subst.
      pose proof (word_not_quote _ Hc) as Hnq. unfold is_quote in Hnq.
      apply orb_false_iff in Hnq as [Hd Hs]. unfold key_at.
      change ((c :: w) ++ ?x) with (c :: (w ++ x)). cbv beta iota.
      rewrite Hd, Hs. change (c :: w ++ ?x) with ((c :: w) ++ x).
      rewrite bare_at_intro by done.
      cbn [mbind option_bind]. by rewrite strip_prefix_app.
Qed.

(** A match of [bound_pat] at the head of [s] is an occurrence of
    [const <identifier> = try env.get(<key>)] there, and conversely. *)
Lemma bound_at_shape s id key r :
  bound_at s = Some (id, key, r) <->
  ident id ∧ key_shape key ∧
  s = str "const " ++ id ++ try_call ++ key ++ str ")" ++ r.
Proof.
  unfold bound_at, call_at. split.
  - destruct (strip_prefix _ s) as [s1|] eqn:E1; [|done].
    cbn [mbind option_bind]. apply strip_prefix_Some in E1 as ->.
    pose proof (take_drop_while is_word s1) as Hs.
    pose proof (take_while_Forall is_word s1) as Hw.
    destruct (take_while is_word s1) as [|c w]; [done|].
    set (d := drop_while is_word s1) in *. clearbody d. subst s1.
    destruct (strip_prefix try_call _) as [s3|] eqn:E3; [|done].
    cbn [mbind option_bind]. apply strip_prefix_Some in E3 as ->.
    destruct (key_close s3) as [[key' r']|] eqn:E; [|done].
    intros [= <- <- <-]. apply key_close_shape in E as [? ->].
    by repeat split.
  - intros (Hid & Hk & ->). rewrite strip_prefix_app.
    cbn [mbind option_bind]. pose proof Hid as [Hne Hw].
    destruct (take_while_app is_word id (try_call ++ key ++ str ")" ++ r))
      as [-> ->]; [done..|].
    destruct id as [|c w]; [done|]. rewrite strip_prefix_app.
    cbn [mbind option_bind].
    destruct (key_close_shape (key ++ str ")" ++ r) key r) as [_ ->]; done.
Qed.

(** A match of [discard_pat] at the head of [s] is an occurrence of
    [_ = try env.get(<key>)] there, and conversely. *)
Lemma discard_at_shape s key r :
  discard_at s = Some (key, r) <->
  key_shape key ∧ s = str "_" ++ try_call ++ key ++ str ")" ++ r.
Proof.
  unfold discard_at, call_at. split.
  - destruct (strip_prefix _ s) as [s1|] eqn:E1; [|done].
    cbn [mbind option_bind]. apply strip_prefix_Some in E1 as ->.
    destruct (strip_prefix try_call _) as [s3|] eqn:E3; [|done].
    cbn [mbind option_bind]. apply strip_prefix_Some in E3 as ->.
    intros [? ->]%key_close_shape. done.
  - intros (Hk & ->). rewrite strip_prefix_app. cbn [mbind option_bind].
    rewrite strip_prefix_app. cbn [mbind option_bind].
    by apply key_close_shape.
Qed.

(** ** The scan of [re.sub] *)

Lemma sub_scan_stable r tpl n n' s :
  (length s < n)%nat -> (length s < n')%nat ->
  sub_scan r tpl n s = sub_scan r tpl n' s.
Proof.
  revert n' s. induction n as [|n IH]; intros [|n'] s Hn Hn'; try lia.
  simpl.
  assert (match s with [] => [] | c :: s' => c :: sub_scan r tpl n s' end
          = match s with [] => [] | c :: s' => c :: sub_scan r tpl n' s' end)
    as Hstep.
  { destruct s as [|c s']; [done|]. simpl in *. f_equal. apply IH; lia. }
  destruct (re_match r s) as [[g rest]|]; [|done]. f_equal.
  destruct (Nat.ltb_spec (length rest) (length s)); [|done].
  apply IH; lia.
Qed.

Lemma re_sub_miss r tpl c s :
  re_match r (c :: s) = None -> re_sub r tpl (c :: s) = c :: re_sub r tpl s.
Proof.
  intros E. unfold re_sub at 1. cbn [sub_scan length]. by rewrite E.
Qed.

Lemma re_sub_hit r tpl s g rest :
  re_match r s = Some (g, rest) -> (length rest < length s)%nat ->
  re_sub r tpl s = expand tpl g ++ re_sub r tpl rest.
Proof.
  intros E Hlt. unfold re_sub at 1. cbn [sub_scan]. rewrite E.
  destruct (Nat.ltb_spec (length rest) (length s)); [|lia].
  f_equal. apply sub_scan_stable; lia.
Qed.

Lemma re_sub_end r tpl : re_match r [] = None -> re_sub r tpl [] = [].
Proof. intros E. unfold re_sub. simpl. by rewrite E. Qed.

(** When the pattern matches nowhere the scan copies the text. *)
Lemma re_sub_no_match r tpl s :
  re_search r s = None -> re_sub r tpl s = s.
Proof.
  induction s as [|c s IH]; simpl.
  - destruct (re_match r []) eqn:E; [done|]. intros _. by apply re_sub_end.
  - destruct (re_match r (c :: s)) eqn:E; [done|]. intros H.
    rewrite re_sub_miss by done. f_equal. auto.
Qed.

Lemma re_search_None r s :
  re_search r s = None <-> ∀ pre y, s = pre ++ y -> re_match r y = None.
Proof.
  split.
  - induction s as [|c s IH]; simpl; intros H pre y Hy.
    + destruct (re_match r []) eqn:E; [done|].
      symmetry in Hy. apply app_eq_nil in Hy as [_ ->]. done.
    + destruct (re_match r (c :: s)) eqn:E; [done|].
      destruct pre as [|d pre]; simpl in Hy; [by subst|].
      injection Hy as -> ->. eauto.
  - intros H. induction s as [|c s IH]; simpl.
    + by rewrite (H [] []).
    + rewrite (H [] (c :: s)) by done. apply IH. intros pre y ->.
      by apply (H (c :: pre)).
Qed.

(** *** The three substitutions of the scripts *)

Lemma re_match_const s :
  re_match const_env_pat s =
    (λ r, (([] : caps), r)) <$> strip_prefix (str "const env = try") s.
Proof.
  unfold re_match, const_env_pat. cbn [m].
  by destruct (strip_prefix (str "const env = try") s).
Qed.

Lemma sub_const_nil : sub_const [] = [].
Proof. by apply re_sub_end. Qed.

Lemma sub_const_hit r :
  sub_const (str "const env = try" ++ r) = str "var env = try" ++ sub_const r.
Proof.
  unfold sub_const.
  rewrite (re_sub_hit _ _ _ [] r).
  - unfold var_env_tpl. cbn [expand]. by rewrite app_nil_r.
  - by rewrite re_match_const, strip_prefix_app.
  - rewrite length_app. unstr. simpl. lia.
Qed.

Lemma sub_const_miss c s :
  strip_prefix (str "const env = try") (c :: s) = None ->
  sub_const (c :: s) = c :: sub_const s.
Proof.
  intros E. apply re_sub_miss. by rewrite re_match_const, E.
Qed.

Lemma sub_bound_nil : sub_bound [] = [].
Proof. by apply re_sub_end. Qed.

Lemma sub_bound_hit id key r :
  ident id -> key_shape key ->
  sub_bound (str "const " ++ id ++ try_call ++ key ++ str ")" ++ r) =
    str "const " ++ id ++ plain_call ++ key ++ str ").?" ++ sub_bound r.
Proof.
  intros Hid Hk. unfold sub_bound.
  rewrite (re_sub_hit _ _ _ [(2%nat, key); (1%nat, id)] r).
  - unfold bound_tpl. cbn [expand group Nat.eqb].
    by rewrite app_nil_r, <- !app_assoc.
  - rewrite re_match_bound.
    by destruct (bound_at_shape
      (str "const " ++ id ++ try_call ++ key ++ str ")" ++ r) id key r)
      as [_ ->].
  - rewrite !length_app. unstr. simpl. lia.
Qed.

Lemma sub_bound_miss c s :
  bound_at (c :: s) = None -> sub_bound (c :: s) = c :: sub_bound s.
Proof.
  intros E. apply re_sub_miss. by rewrite re_match_bound, E.
Qed.

Lemma sub_discard_nil : sub_discard [] = [].
Proof. by apply re_sub_end. Qed.

Lemma sub_discard_hit key r :
  key_shape key ->
  sub_discard (str "_" ++ try_call ++ key ++ str ")" ++ r) =
    str "_" ++ plain_call ++ key ++ str ").?" ++ sub_discard r.
Proof.
  intros Hk. unfold sub_discard.
  rewrite (re_sub_hit _ _ _ [(1%nat, key)] r).
  - unfold discard_tpl. cbn [expand group Nat.eqb].
    by rewrite app_nil_r, <- !app_assoc.
  - rewrite re_match_discard.
    by destruct (discard_at_shape
      (str "_" ++ try_call ++ key ++ str ")" ++ r) key r) as [_ ->].
  - rewrite !length_app. unstr. simpl. lia.
Qed.

Lemma sub_discard_miss c s :
  discard_at (c :: s) = None -> sub_discard (c :: s) = c :: sub_discard s.
Proof.
  intros E. apply re_sub_miss. by rewrite re_match_discard, E.
Qed.

Lemma fix_env_get_calls_eq s :
  fix_env_get_calls s = sub_discard (sub_bound s).
Proof. done. Qed.

(** ** [fix_const_to_var] *)

(** The pattern cannot overlap itself: it starts again only after its
    own end. *)
Lemma const_env_no_overlap pre post c s :
  pre = c :: s ->
  strip_prefix (str "const env = try") pre = None ->
  strip_prefix (str "const env = try")
    (pre ++ str "const env = try" ++ post) = None.
Proof.
  intros -> Hpre.
  destruct (strip_prefix _ (_ ++ _)) as [z|] eqn:E; [exfalso|done].
  apply strip_prefix_Some in E. revert Hpre E. unstr. intros Hpre E.
  simplify_eq/=.
  do 14 (destruct s as [|? s]; simplify_eq/=).
Qed.

Lemma sub_const_app pre post :
  sub_const (pre ++ str "const env = try" ++ post) =
    sub_const pre ++ str "var env = try" ++ sub_const post.
Proof.
  remember (length pre) as n eqn:Hn. revert pre Hn.
  induction n as [n IH] using lt_wf_ind. intros pre ->.
  destruct pre as [|c pre].
  { rewrite sub_const_nil. apply sub_const_hit. }
  destruct (strip_prefix (str "const env = try") (c :: pre)) as [r|] eqn:E.
  - apply strip_prefix_Some in E. rewrite E, <- app_assoc, !sub_const_hit.
    rewrite <- app_assoc. f_equal.
    apply (IH (length r)); [|done]. rewrite E, length_app. unstr. simpl. lia.
  - pose proof (const_env_no_overlap _ post _ _ eq_refl E) as E'.
    rewrite sub_const_miss by done.
    change ((c :: pre) ++ ?x) with (c :: (pre ++ x)) in *.
    rewrite sub_const_miss by done. simpl. f_equal.
    apply (IH (length pre)); [simpl; lia|done].
Qed.

Lemma sub_const_untouched s :
  ¬ occurs (str "const env = try") s -> sub_const s = s.
Proof.
  intros Hno. apply re_sub_no_match, re_search_None. intros pre y ->.
  rewrite re_match_const.
  destruct (strip_prefix _ y) as [r|] eqn:E; [exfalso|done].
  apply strip_prefix_Some in E as ->. apply Hno. by exists pre, r.
Qed.

Lemma occurs_dec_const s :
  occurs (str "const env = try") s ∨ ¬ occurs (str "const env = try") s.
Proof.
  destruct (re_search const_env_pat s) as [x|] eqn:E.
  - left. induction s as [|c s IH]; cbn [re_search] in E.
    + by rewrite re_match_const in E.
    + rewrite re_match_const in E.
      destruct (strip_prefix _ (c :: s)) as [r|] eqn:Er;
        cbn [fmap option_fmap option_map] in E.
      * apply strip_prefix_Some in Er as ->. by exists [], r.
      * destruct (IH E) as (pre & post & ->). by exists (c :: pre), post.
  - right. intros (pre & post & ->).
    pose proof (proj1 (re_search_None _ _) E pre _ eq_refl) as H.
    by rewrite re_match_const, strip_prefix_app in H.
Qed.

(** The replacement neither contains the pattern nor completes one with
    the text around it. *)
Lemma occurs_const_around a b :
  occurs (str "const env = try") (a ++ str "var env = try" ++ b) ->
  occurs (str "const env = try") a ∨ occurs (str "const env = try") b.
Proof.
  intros (pre & post & E).
  apply app_eq_app in E as [l [[-> E]|[-> E]]]; revert E; unstr; intros E.
  - do 15 (destruct l as [|? l]; simplify_eq/=). left. by exists pre, l.
  - do 13 (destruct l as [|? l]; simplify_eq/=). right. by exists l, post.
Qed.

Lemma sub_const_clean s : ¬ occurs (str "const env = try") (sub_const s).
Proof.
  remember (length s) as n eqn:Hn. revert s Hn.
  induction n as [n IH] using lt_wf_ind. intros s ->.
  destruct (occurs_dec_const s) as [(pre & post & ->)|Hno].
  - rewrite sub_const_app. intros [H|H]%occurs_const_around; revert H.
    + apply (IH (length pre)); [|done]. rewrite !length_app. unstr. simpl. lia.
    + apply (IH (length post)); [|done]. rewrite !length_app. unstr. simpl. lia.
  - by rewrite sub_const_untouched.
Qed.

(** ** The edits of [fix_env_get_calls] as a relation *)

Lemma rw_refl s : rewrites s s.
Proof. induction s; by constructor. Qed.

Lemma rw_app a a' b b' :
  rewrites a a' -> rewrites b b' -> rewrites (a ++ b) (a' ++ b').
Proof.
  intros Ha Hb. induction Ha; simpl; rewrite <- ?app_assoc; try by constructor.
  done.
Qed.

Lemma rw_cons_inv s c t :
  rewrites s (c :: t) ->
  (∃ s', s = c :: s' ∧ rewrites s' t)
  ∨ (∃ s' t', s = try_call ++ s' ∧ c :: t = plain_call ++ t' ∧ rewrites s' t')
  ∨ (∃ s' t', s = str ")" ++ s' ∧ c :: t = str ").?" ++ t' ∧ rewrites s' t').
Proof.
  inversion 1; subst; [left|right; left|right; right]; eauto.
Qed.

(** No edit starts at a character other than the space and the closing
    parenthesis. *)
Lemma rw_plain_inv s c t :
  c ≠ 32 -> c ≠ 41 -> rewrites s (c :: t) ->
  ∃ s', s = c :: s' ∧ rewrites s' t.
Proof.
  intros H1 H2 [H|[(s' & t' & _ & E & _)|(s' & t' & _ & E & _)]]%rw_cons_inv;
    [done|revert E; unlit; intros E; simplify_eq/=..].
Qed.

Lemma rw_run_inv s w t :
  Forall (λ c, c ≠ 32 ∧ c ≠ 41) w -> rewrites s (w ++ t) ->
  ∃ s', s = w ++ s' ∧ rewrites s' t.
Proof.
  intros Hw. revert s. induction Hw as [|c w [H1 H2] _ IH]; intros s H.
  - by exists s.
  - apply rw_plain_inv in H as (s' & -> & H); [|done..].
    apply IH in H as (s'' & -> & H). by exists s''.
Qed.

Lemma word_plain w :
  Forall (λ c, is_word c = true) w -> Forall (λ c, c ≠ 32 ∧ c ≠ 41) w.
Proof.
  intros H. eapply Forall_impl; [done|].
  intros c Hc. split; intros ->; by vm_compute in Hc.
Qed.

Ltac rw_step H :=
  apply rw_cons_inv in H as
    [(? & -> & H)|[(? & ? & _ & ? & _)|(? & ? & _ & ? & _)]];
  [|unlit; simplify_eq/=..].

Lemma rw_try_call_inv s t :
  rewrites s (try_call ++ t) -> ∃ s', s = try_call ++ s' ∧ rewrites s' t.
Proof.
  intros H. unfold try_call in *. unstr. simpl in H.
  do 15 rw_step H. eauto.
Qed.

Lemma rw_const_inv s c t :
  c ≠ 61 -> rewrites s (str "const " ++ c :: t) ->
  ∃ s', s = str "const " ++ s' ∧ rewrites s' (c :: t).
Proof.
  intros Hc H. unstr. simpl in H. do 6 rw_step H. eauto.
Qed.

Lemma rw_close_inv s t :
  rewrites s (str ")" ++ t) -> ∃ s', s = str ")" ++ s'.
Proof.
  intros [(s' & -> & _)|[(s' & t' & _ & E & _)|(s' & t' & -> & _)]]%rw_cons_inv;
    [eauto| |eauto].
  revert E. unlit. intros E. simplify_eq/=.
Qed.

(** Edits neither add nor remove quote characters. *)
Lemma rw_quote_free s t q :
  is_quote q = true -> rewrites s t -> q ∉ t -> q ∉ s.
Proof.
  intros Hq H. apply is_quote_spec in Hq.
  induction H as [|c s t Hst IH|s t Hst IH|s t Hst IH]; [done|..].
  - rewrite !not_elem_of_cons. intros [? ?]. split; [done|auto].
  - rewrite !not_elem_of_app. intros [_ ?]. split; [|auto].
    unlit. rewrite !not_elem_of_cons.
    destruct Hq as [-> | ->]; repeat split; (done || apply not_elem_of_nil).
  - rewrite !not_elem_of_app. intros [_ ?]. split; [|auto].
    unlit. rewrite !not_elem_of_cons.
    destruct Hq as [-> | ->]; repeat split; (done || apply not_elem_of_nil).
Qed.

(** An edited text splits at a quote character where the original does. *)
Lemma rw_quote_split s b q t :
  is_quote q = true -> rewrites s (b ++ q :: t) ->
  ∃ b' s', s = b' ++ q :: s' ∧ rewrites b' b ∧ rewrites s' t.
Proof.
  intros Hq H. apply is_quote_spec in Hq.
  remember (b ++ q :: t) as u eqn:Hu. revert b Hu.
  induction H as [|c s u H IH|s u H IH|s u H IH]; intros b Hu.
  - by destruct b.
  - destruct b as [|d b]; simplify_eq/=.
    + exists [], s. split; [done|]. split; [constructor|done].
    + destruct (IH b eq_refl) as (b' & s' & -> & ? & ?).
      exists (d :: b'), s'. split; [done|]. split; [by constructor|done].
  - revert Hu. unlit. intros Hu.
    do 11 (destruct b as [|? b]; [destruct Hq; simplify_eq/=|]; simplify_eq/=).
    destruct (IH b eq_refl) as (b' & s' & -> & ? & ?).
    exists (str " = try env.get(" ++ b'), s'. split; [done|].
    split; [|done]. by apply (rw_try b' b).
  - revert Hu. unlit. intros Hu.
    do 3 (destruct b as [|? b]; [destruct Hq; simplify_eq/=|]; simplify_eq/=).
    destruct (IH b eq_refl) as (b' & s' & -> & ? & ?).
    exists (str ")" ++ b'), s'. split; [done|].
    split; [|done]. by apply (rw_unwrap b' b).
Qed.

Lemma rw_nonempty s t : rewrites s t -> t ≠ [] -> s ≠ [].
Proof. by destruct 1. Qed.

(** An occurrence of the marker in an edited text comes from one in the
    original. *)
Lemma rw_find_marker s pre y :
  rewrites s (pre ++ try_call ++ y) ->
  ∃ pre' y', s = pre' ++ try_call ++ y' ∧ rewrites y' y.
Proof.
  intros H. remember (pre ++ try_call ++ y) as u eqn:Hu. revert pre Hu.
  induction H as [|c s u H IH|s u H IH|s u H IH]; intros pre Hu.
  - destruct pre; revert Hu; unlit; intros Hu; simplify_eq/=.
  - destruct pre as [|d pre].
    + cbn [app] in Hu. assert (rewrites (c :: s) (try_call ++ y)) as H'.
      { rewrite <- Hu. by constructor. }
      apply rw_try_call_inv in H' as (s' & -> & ?). by exists [], s'.
    + simplify_eq/=. destruct (IH pre eq_refl) as (pre' & y' & -> & ?).
      by exists (d :: pre'), y'.
  - revert Hu. unlit. intros Hu.
    do 11 (destruct pre as [|? pre]; simplify_eq/=).
    destruct (IH pre eq_refl) as (pre' & y' & -> & ?).
    exists (str " = try env.get(" ++ pre'), y'. by rewrite <- app_assoc.
  - revert Hu. unlit. intros Hu.
    do 3 (destruct pre as [|? pre]; simplify_eq/=).
    destruct (IH pre eq_refl) as (pre' & y' & -> & ?).
    exists (str ")" ++ pre'), y'. by rewrite <- app_assoc.
Qed.

Lemma rw_occurs_marker s t :
  rewrites s t -> occurs try_call t -> occurs try_call s.
Proof.
  intros H (pre & y & ->). apply rw_find_marker in H as (pre' & y' & -> & _).
  by exists pre', y'.
Qed.

Lemma call_at_shape s key r :
  call_at s = Some (key, r) <->
  key_shape key ∧ s = try_call ++ key ++ str ")" ++ r.
Proof.
  unfold call_at. split.
  - destruct (strip_prefix try_call s) as [s'|] eqn:E; [|done].
    apply strip_prefix_Some in E as ->. cbn [mbind option_bind].
    by intros [? ->]%key_close_shape.
  - intros [Hk ->]. rewrite strip_prefix_app. by apply key_close_shape.
Qed.

Lemma bound_at_call s id key r :
  bound_at s = Some (id, key, r) <->
  ident id ∧ ∃ s', s = str "const " ++ id ++ s' ∧ call_at s' = Some (key, r).
Proof.
  rewrite bound_at_shape. split.
  - intros (? & ? & ->). split; [done|]. eexists. split; [done|].
    by apply call_at_shape.
  - intros (? & s' & -> & [? ->]%call_at_shape). done.
Qed.

Lemma discard_at_call s key r :
  discard_at s = Some (key, r) <->
  ∃ s', s = str "_" ++ s' ∧ call_at s' = Some (key, r).
Proof.
  rewrite discard_at_shape. split.
  - intros (? & ->). eexists. split; [done|]. by apply call_at_shape.
  - intros (s' & -> & [? ->]%call_at_shape). done.
Qed.

(** Both substitutions are made of the two edits. *)
Lemma rw_sub_bound s : rewrites s (sub_bound s).
Proof.
  remember (length s) as n eqn:Hn. revert s Hn.
  induction n as [n IH] using lt_wf_ind. intros s ->.
  destruct s as [|c s]; [rewrite sub_bound_nil; constructor|].
  destruct (bound_at (c :: s)) as [[[id key] r]|] eqn:E.
  - apply bound_at_shape in E as (Hid & Hk & E). rewrite E.
    rewrite sub_bound_hit by done.
    apply rw_app; [apply rw_refl|]. apply rw_app; [apply rw_refl|].
    apply rw_try. apply rw_app; [apply rw_refl|]. apply rw_unwrap.
    apply (IH (length r)); [|done].
    rewrite E, !length_app. unstr. simpl. lia.
  - rewrite sub_bound_miss by done. constructor.
    apply (IH (length s)); [simpl; lia|done].
Qed.

Lemma rw_sub_discard s : rewrites s (sub_discard s).
Proof.
  remember (length s) as n eqn:Hn. revert s Hn.
  induction n as [n IH] using lt_wf_ind. intros s ->.
  destruct s as [|c s]; [rewrite sub_discard_nil; constructor|].
  destruct (discard_at (c :: s)) as [[key r]|] eqn:E.
  - apply discard_at_shape in E as (Hk & E). rewrite E.
    rewrite sub_discard_hit by done.
    apply rw_app; [apply rw_refl|].
    apply rw_try. apply rw_app; [apply rw_refl|]. apply rw_unwrap.
    apply (IH (length r)); [|done].
    rewrite E, !length_app. unstr. simpl. lia.
  - rewrite sub_discard_miss by done. constructor.
    apply (IH (length s)); [simpl; lia|done].
Qed.

(** *** A match after edits was a match before *)

Lemma rw_key_inv s key r :
  key_shape key -> rewrites s (key ++ str ")" ++ r) ->
  ∃ key' r', key_shape key' ∧ s = key' ++ str ")" ++ r'.
Proof.
  intros [q body Hq Hne Hb|w [Hne Hw]] H.
  - assert (q ≠ 32 ∧ q ≠ 41) as [H1 H2].
    { apply is_quote_spec in Hq as [-> | ->]; done. }
    cbn [app] in H. rewrite <- app_assoc in H. cbn [app] in H.
    apply rw_plain_inv in H as (s1 & -> & H); [|done..].
    apply rw_quote_split in H as (b' & s2 & -> & Hbb & H); [|done].
    apply rw_close_inv in H as (r' & ->).
    exists (q :: b' ++ [q]), r'. split.
    + constructor; [done|by eapply rw_nonempty|by eapply rw_quote_free].
    + cbn [app]. by rewrite <- app_assoc.
  - apply rw_run_inv in H as (s1 & -> & H); [|by apply word_plain].
    apply rw_close_inv in H as (r' & ->). exists w, r'.
    split; [by constructor|done].
Qed.

Lemma rw_call_at s t :
  rewrites s t -> is_Some (call_at t) -> is_Some (call_at s).
Proof.
  intros H [[key r] [Hk ->]%call_at_shape].
  apply rw_try_call_inv in H as (s1 & -> & H).
  apply rw_key_inv in H as (key' & r' & Hk' & ->); [|done].
  exists (key', r'). by apply call_at_shape.
Qed.

Lemma rw_bound_at s t :
  rewrites s t -> is_Some (bound_at t) -> is_Some (bound_at s).
Proof.
  intros H [[[id key] r] (Hid & s' & -> & Hc)%bound_at_call].
  pose proof Hid as [Hne Hw]. destruct id as [|c w]; [done|].
  assert (c ≠ 61) as Hc'.
  { inversion Hw; subst. intros ->. by vm_compute in H2. }
  change ((c :: w) ++ s') with (c :: (w ++ s')) in H.
  apply rw_const_inv in H as (s1 & -> & H); [|done].
  change (c :: (w ++ s')) with ((c :: w) ++ s') in H.
  apply rw_run_inv in H as (s2 & -> & H); [|by apply word_plain].
  destruct (rw_call_at s2 s' H) as [[key' r'] Hc'']; [by eexists|].
  exists (c :: w, key', r'). apply bound_at_call. eauto.
Qed.

Lemma rw_discard_at s t :
  rewrites s t -> is_Some (discard_at t) -> is_Some (discard_at s).
Proof.
  intros H [[key r] (s' & -> & Hc)%discard_at_call].
  unstr. simpl in H. apply rw_plain_inv in H as (s1 & -> & H); [|done..].
  destruct (rw_call_at s1 s' H) as [[key' r'] Hc']; [by eexists|].
  exists (key', r'). apply discard_at_call. by exists s1.
Qed.

(** ** Text in which no match can start *)

Lemma inert_app {A} (f : text -> option A) u v :
  inert_before f u v -> inert f v -> inert f (u ++ v).
Proof.
  intros Hu Hv w1 w2 x E Hne.
  apply app_eq_app in E as [l [[-> ->]|[-> ->]]].
  - destruct l as [|c l]; [by apply (Hv [] v)|].
    rewrite <- app_assoc. by apply (Hu w1).
  - by apply (Hv l).
Qed.

Lemma inert_last {A} (f : text -> option A) u :
  inert_before f u [] -> inert f u.
Proof. intros H u1 u2 x E Hne. by apply (H u1). Qed.

Lemma quiet_app {A} (f : text -> option A) u x :
  inert f u -> quiet f x -> quiet f (u ++ x).
Proof.
  intros Hu Hx pre y E.
  apply app_eq_app in E as [l [[-> ->]|[-> ->]]].
  - destruct l as [|c l]; [by apply (Hx [])|]. by apply (Hu pre).
  - by apply (Hx l).
Qed.

Lemma quiet_cons {A} (f : text -> option A) c x :
  f (c :: x) = None -> quiet f x -> quiet f (c :: x).
Proof.
  intros Hc Hx [|d pre] y E; simplify_eq/=; [done|]. by apply (Hx pre).
Qed.

Lemma quiet_suffix {A} (f : text -> option A) pre x :
  quiet f (pre ++ x) -> quiet f x.
Proof. intros H p y ->. apply (H (pre ++ p)). by rewrite app_assoc. Qed.

Lemma quiet_head {A} (f : text -> option A) x : quiet f x -> f x = None.
Proof. intros H. by apply (H []). Qed.

(** A match of [bound_pat] starts with [c], one of [discard_pat] with
    [_]. *)
Lemma bound_at_head c z : c ≠ 99 -> bound_at (c :: z) = None.
Proof.
  intros Hc. unfold bound_at. unstr. simpl. by destruct (N.eqb_spec c 99).
Qed.

Lemma discard_at_head c z : c ≠ 95 -> discard_at (c :: z) = None.
Proof.
  intros Hc. unfold discard_at. unstr. simpl. by destruct (N.eqb_spec c 95).
Qed.

Lemma inert_before_lit {A} (f : text -> option A) c0 u v :
  starter f c0 -> c0 ∉ u -> inert_before f u v.
Proof.
  intros Hf Hu u1 u2 x -> Hne. apply not_elem_of_app in Hu as [_ Hu].
  destruct u2 as [|c u2]; [done|]. apply not_elem_of_cons in Hu as [Hc _].
  apply Hf. congruence.
Qed.

Ltac word_lit :=
  unlit_goal; repeat (apply Forall_cons; split; [done|]); by apply Forall_nil.

Ltac fresh_lit :=
  unlit_goal; rewrite ?not_elem_of_cons; repeat split;
  (done || apply not_elem_of_nil).

(** *** Runs of word characters and fresh characters *)

Lemma word_run_unique w w' s s' :
  Forall (λ c, is_word c = true) w -> Forall (λ c, is_word c = true) w' ->
  match s with c :: _ => is_word c = false | [] => True end ->
  match s' with c :: _ => is_word c = false | [] => True end ->
  w ++ s = w' ++ s' -> w = w' ∧ s = s'.
Proof.
  intros Hw Hw' Hs Hs' E.
  destruct (take_while_app is_word w s Hw Hs) as [E1 E2].
  destruct (take_while_app is_word w' s' Hw' Hs') as [E1' E2'].
  rewrite E in E1, E2. split; congruence.
Qed.

Lemma cons_eq_inv (c d : char) (a b : text) :
  c :: a = d :: b -> c = d ∧ a = b.
Proof. by intros [= -> ->]. Qed.

Lemma split_at_fresh (c : char) u a z y :
  c ∉ u -> a ++ c :: z = u ++ y -> ∃ a', a = u ++ a' ∧ y = a' ++ c :: z.
Proof.
  revert a. induction u as [|d u IH]; intros a Hc E; [by exists a|].
  apply not_elem_of_cons in Hc as [Hd Hc].
  destruct a as [|e a]; cbn [app] in E; apply cons_eq_inv in E as [-> E];
    [done|].
  destruct (IH a Hc E) as (a' & -> & ->). by exists a'.
Qed.

Lemma word_not_elem c w :
  is_word c = false -> Forall (λ c, is_word c = true) w -> c ∉ w.
Proof.
  intros Hc Hw Hin. rewrite Forall_forall in Hw. apply Hw in Hin. congruence.
Qed.

Lemma occurs_quoted q body :
  is_quote q = true -> occurs try_call (q :: body ++ [q]) ->
  occurs try_call body.
Proof.
  intros Hq (pre & post & E). apply is_quote_spec in Hq.
  destruct pre as [|d pre].
  { revert E. unlit. intros E. destruct Hq; simplify_eq/=. }
  cbn [app] in E. apply cons_eq_inv in E as [_ E].
  destruct post as [|c post _] using rev_ind.
  - rewrite app_nil_r in E.
    change try_call with (str " = try env.get" ++ [40]) in E.
    rewrite app_assoc in E. apply app_inj_tail in E as [_ ->].
    destruct Hq; discriminate.
  - rewrite !app_assoc in E. apply app_inj_tail in E as [-> _].
    exists pre, post. by rewrite <- app_assoc.
Qed.

(** *** The parts of a match and of its replacement *)

Lemma opens_bound : opens bound_at.
Proof.
  intros s [[[id key] r] (Hid & Hk & ->)%bound_at_shape].
  exists (str "const " ++ id), (key ++ str ")" ++ r).
  split; [by rewrite <- app_assoc|]. apply Forall_app. split.
  - unstr. repeat (apply Forall_cons; split; [by (left + right)|]).
    by apply Forall_nil.
  - destruct Hid as [_ Hw]. eapply Forall_impl; [done|]. by left.
Qed.

Lemma opens_discard : opens discard_at.
Proof.
  intros s [[key r] (Hk & ->)%discard_at_shape].
  exists (str "_"), (key ++ str ")" ++ r). split; [done|].
  unstr. apply Forall_cons. split; [by left|]. by apply Forall_nil.
Qed.

Lemma opening_fresh (c : char) h :
  is_word c = false -> c ≠ 32 -> c ∉ try_call ->
  Forall (λ c, is_word c = true ∨ c = 32) h -> c ∉ h ++ try_call.
Proof.
  intros Hw Hs Ht Hh. apply not_elem_of_app. split; [|done].
  intros Hin. rewrite Forall_forall in Hh.
  destruct (Hh _ Hin); congruence.
Qed.

(** No match starts inside a key that is free of the marker. *)
Lemma key_inert {A} (f : text -> option A) key v :
  opens f -> key_shape key -> ¬ occurs try_call key ->
  inert_before f key (str ")" ++ v).
Proof.
  intros Hf Hk Hno u1 u2 x E Hne.
  destruct (f _) as [y|] eqn:Ef; [exfalso|done].
  destruct (Hf _ ltac:(by eexists)) as (h & z & Es & Hh). clear Ef y.
  destruct Hk as [q body Hq Hnb Hqb|w [Hnw Hw]].
  - assert (is_word q = false ∧ q ≠ 32 ∧ q ∉ try_call) as (Hqw & Hqs & Hqt).
    { apply is_quote_spec in Hq as [-> | ->]; repeat split; try done;
        fresh_lit. }
    change (q :: body ++ [q]) with ((q :: body) ++ [q]) in E.
    destruct u2 as [|c u2 _] using rev_ind; [done|].
    rewrite app_assoc in E. apply app_inj_tail in E as [E <-].
    destruct u1 as [|d u1]; cbn [app] in E.
    { subst u2. destruct h as [|d h]; revert Es; unlit; intros Es.
      - destruct (proj1 (is_quote_spec _) Hq); simplify_eq/=.
      - apply cons_eq_inv in Es as [<- _]. inversion Hh as [|? ? [?|?]]; subst;
          congruence. }
    apply cons_eq_inv in E as [<- ->].
    rewrite <- !app_assoc in Es. cbn [app] in Es.
    rewrite (app_assoc h) in Es.
    apply split_at_fresh in Es as (a' & -> & _);
      [|by apply opening_fresh].
    apply Hno. exists (q :: u1 ++ h), (a' ++ [q]).
    cbn [app]. by rewrite <- !app_assoc.
  - rewrite <- app_assoc in Es. change (str ")" ++ ?t) with (41 :: t) in Es.
    rewrite (app_assoc h) in Es.
    apply split_at_fresh in Es as (a' & -> & _).
    + apply Hno. exists (u1 ++ h), a'. subst w. by rewrite <- !app_assoc.
    + apply opening_fresh; [done..|fresh_lit|done].
Qed.

Lemma starter_bound : starter bound_at 99.
Proof. intros c z H. by apply bound_at_head. Qed.

Lemma starter_discard : starter discard_at 95.
Proof. intros c z H. by apply discard_at_head. Qed.

(** After [const <identifier>] the replacement continues with the plain
    call, so no match of [bound_pat] starts there. *)
Lemma bound_at_plain_call id z :
  ident id -> bound_at (str "const " ++ id ++ plain_call ++ z) = None.
Proof.
  intros [_ Hw].
  destruct (bound_at _) as [[[id' key] r]|] eqn:E; [exfalso|done].
  apply bound_at_shape in E as ([_ Hw'] & _ & E).
  apply app_inv_head in E.
  apply word_run_unique in E as [_ E]; [|done..].
  revert E. unlit. intros E. simplify_eq/=.
Qed.

Lemma const_inert_bound id v :
  ident id ->
  inert_before bound_at (str "const ") (id ++ plain_call ++ v).
Proof.
  intros Hid u1 u2 x E Hne. destruct u1 as [|c u1].
  - cbn [app] in E. subst u2. rewrite <- !app_assoc.
    by apply bound_at_plain_call.
  - apply (inert_before_lit bound_at 99 (str "onst ") _ starter_bound
             ltac:(fresh_lit) u1); [|done].
    revert E. unstr. intros E. by apply cons_eq_inv in E as [_ E].
Qed.

Lemma ident_inert_bound id v :
  ident id -> inert_before bound_at id (plain_call ++ v).
Proof.
  intros [_ Hw] u1 u2 x -> Hne. apply Forall_app in Hw as [_ Hw].
  destruct (bound_at _) as [[[id' key] r]|] eqn:E; [exfalso|done].
  apply bound_at_shape in E as ([Hne' Hw'] & _ & E).
  rewrite <- !app_assoc in E.
  change (str "const " ++ ?t) with (str "const" ++ 32 :: t) in E.
  apply word_run_unique in E as [_ E]; [|done|word_lit|done..].
  destruct id' as [|c id']; [done|]. inversion Hw' as [|? ? Hc _]; subst.
  revert E. unlit. intros E. simplify_eq/=.
Qed.

Lemma ident_inert_discard id v :
  ident id -> inert_before discard_at id (plain_call ++ v).
Proof.
  intros [_ Hw] u1 u2 x -> Hne. apply Forall_app in Hw as [_ Hw].
  destruct (discard_at _) as [[key r]|] eqn:E; [exfalso|done].
  apply discard_at_shape in E as (_ & E). rewrite <- !app_assoc in E.
  apply word_run_unique in E as [_ E]; [|done|word_lit|done..].
  revert E. unlit. intros E. simplify_eq/=.
Qed.

Lemma tail_inert {A} (f : text -> option A) c0 key l :
  starter f c0 -> opens f -> c0 ∉ str ")" ++ l ->
  key_shape key -> ¬ occurs try_call key ->
  inert f (key ++ str ")" ++ l).
Proof.
  intros Hs Ho Hl Hk Hno. apply inert_app.
  - by apply key_inert.
  - apply inert_last. by eapply inert_before_lit.
Qed.

Lemma bound_out_inert_bound id key :
  ident id -> key_shape key -> ¬ occurs try_call key ->
  inert bound_at (bound_out id key).
Proof.
  intros Hid Hk Hno. unfold bound_out.
  apply inert_app; [by apply const_inert_bound|].
  apply inert_app; [by apply ident_inert_bound|].
  apply inert_app; [apply (inert_before_lit _ 99); [apply starter_bound|fresh_lit]|].
  apply (tail_inert bound_at 99 key (str ".?"));
    [apply starter_bound|apply opens_bound|fresh_lit|done..].
Qed.

Lemma bound_out_inert_discard id key :
  ident id -> key_shape key -> ¬ occurs try_call key ->
  inert discard_at (bound_out id key).
Proof.
  intros Hid Hk Hno. unfold bound_out.
  apply inert_app;
    [apply (inert_before_lit _ 95); [apply starter_discard|fresh_lit]|].
  apply inert_app; [by apply ident_inert_discard|].
  apply inert_app;
    [apply (inert_before_lit _ 95); [apply starter_discard|fresh_lit]|].
  apply (tail_inert discard_at 95 key (str ".?"));
    [apply starter_discard|apply opens_discard|fresh_lit|done..].
Qed.

Lemma discard_out_inert_bound key :
  key_shape key -> ¬ occurs try_call key ->
  inert bound_at (discard_out key).
Proof.
  intros Hk Hno. unfold discard_out.
  apply inert_app; [apply (inert_before_lit _ 99); [apply starter_bound|fresh_lit]|].
  apply inert_app; [apply (inert_before_lit _ 99); [apply starter_bound|fresh_lit]|].
  apply (tail_inert bound_at 99 key (str ".?"));
    [apply starter_bound|apply opens_bound|fresh_lit|done..].
Qed.

Lemma discard_out_inert_discard key :
  key_shape key -> ¬ occurs try_call key ->
  inert discard_at (discard_out key).
Proof.
  intros Hk Hno. unfold discard_out. apply inert_app.
  - intros u1 u2 x E Hne. destruct u1 as [|c u1].
    + cbn [app] in E. subst u2. by rewrite <- !app_assoc.
    + revert E. unstr. intros E. apply cons_eq_inv in E as [_ E].
      by destruct u1, u2.
  - apply inert_app;
      [apply (inert_before_lit _ 95); [apply starter_discard|fresh_lit]|].
    apply (tail_inert discard_at 95 key (str ".?"));
      [apply starter_discard|apply opens_discard|fresh_lit|done..].
Qed.

Lemma discard_in_inert_bound key :
  key_shape key -> ¬ occurs try_call key ->
  inert bound_at (discard_in key).
Proof.
  intros Hk Hno. unfold discard_in.
  apply inert_app; [apply (inert_before_lit _ 99); [apply starter_bound|fresh_lit]|].
  apply inert_app; [apply (inert_before_lit _ 99); [apply starter_bound|fresh_lit]|].
  apply (tail_inert bound_at 99 key []);
    [apply starter_bound|apply opens_bound|fresh_lit|done..].
Qed.

(** The scan copies inert text. *)
Lemma sub_bound_inert u x :
  inert bound_at u -> sub_bound (u ++ x) = u ++ sub_bound x.
Proof.
  induction u as [|c u IH]; intros Hu; [done|]. cbn [app].
  rewrite sub_bound_miss by (by apply (Hu [] (c :: u))).
  f_equal. apply IH. intros u1 u2 y -> Hne. by apply (Hu (c :: u1)).
Qed.

Lemma sub_discard_inert u x :
  inert discard_at u -> sub_discard (u ++ x) = u ++ sub_discard x.
Proof.
  induction u as [|c u IH]; intros Hu; [done|]. cbn [app].
  rewrite sub_discard_miss by (by apply (Hu [] (c :: u))).
  f_equal. apply IH. intros u1 u2 y -> Hne. by apply (Hu (c :: u1)).
Qed.

(** ** Keys that carry the marker *)

Lemma keys_clean_suffix pre s : keys_clean (pre ++ s) -> keys_clean s.
Proof.
  intros H p q body post -> Hq Hb. apply (H (pre ++ p) q body post); [|done..].
  by rewrite <- app_assoc.
Qed.

Lemma word_no_marker w :
  Forall (λ c, is_word c = true) w -> ¬ occurs try_call w.
Proof.
  intros Hw (pre & post & ->). apply Forall_app in Hw as [_ Hw].
  apply Forall_app in Hw as [Hw _]. by inversion Hw.
Qed.

Lemma keys_clean_key h key r :
  keys_clean (h ++ try_call ++ key ++ str ")" ++ r) ->
  key_shape key -> ¬ occurs try_call key.
Proof.
  intros H Hk. revert H.
  destruct Hk as [q body Hq Hne Hb|w [_ Hw]]; intros H;
    [|by apply word_no_marker].
  intros Ho%occurs_quoted; [|done]. revert Ho.
  apply (H h q body (str ")" ++ r)); [|done..].
  cbn [app]. by rewrite <- !app_assoc.
Qed.

Lemma keys_clean_rw s t : rewrites s t -> keys_clean s -> keys_clean t.
Proof.
  intros Hrw H pre q body post -> Hq Hb Ho.
  apply rw_find_marker in Hrw as (pre' & y' & -> & Hrw).
  assert (q ≠ 32 ∧ q ≠ 41) as [H1 H2].
  { apply is_quote_spec in Hq as [-> | ->]; done. }
  apply rw_plain_inv in Hrw as (y'' & -> & Hrw); [|done..].
  apply rw_quote_split in Hrw as (b' & s' & -> & Hb' & _); [|done].
  apply (H pre' q b' s'); [done..|by eapply rw_quote_free|].
  by eapply rw_occurs_marker.
Qed.

(** *** Where the scan leaves no match behind *)

Section Quiet.
Context {A B : Type} (f : text -> option A) (g : text -> option B).
Context (sub : text -> text) (P : text -> Prop).

Hypothesis f_nil : f [] = None.
Hypothesis f_rw : ∀ s t, rewrites s t -> is_Some (f t) -> is_Some (f s).
Hypothesis sub_rw : ∀ s, rewrites s (sub s).
Hypothesis sub_nil : sub [] = [].
Hypothesis sub_miss : ∀ c s, g (c :: s) = None -> sub (c :: s) = c :: sub s.
Hypothesis sub_hit : ∀ s, is_Some (g s) -> keys_clean s ->
  ∃ u pre r, s = pre ++ r ∧ pre ≠ [] ∧ sub s = u ++ sub r ∧ inert f u.
Hypothesis P_miss : ∀ s, P s -> g s = None -> f s = None.
Hypothesis P_suffix : ∀ pre s, P (pre ++ s) -> P s.

Lemma quiet_after_sub s : keys_clean s -> P s -> quiet f (sub s).
Proof using unicode_alnum A B f g sub P f_nil f_rw sub_rw sub_nil sub_miss
  sub_hit P_miss P_suffix.
  remember (length s) as n eqn:Hn. revert s Hn.
  induction n as [n IH] using lt_wf_ind. intros s -> Hc HP.
  destruct s as [|c s].
  { rewrite sub_nil. intros pre y E. symmetry in E.
    by apply app_eq_nil in E as [_ ->]. }
  destruct (g (c :: s)) as [b|] eqn:Eg.
  - destruct (sub_hit (c :: s)) as (u & pre & r & E & Hne & -> & Hu);
      [by eexists|done|].
    apply quiet_app; [done|].
    apply (IH (length r)); [|done| |].
    + rewrite E, length_app. destruct pre; [done|]. simpl. lia.
    + rewrite E in Hc. by eapply keys_clean_suffix.
    + rewrite E in HP. by eapply P_suffix.
  - rewrite sub_miss by done. apply quiet_cons.
    + destruct (f (c :: sub s)) as [a|] eqn:Ef; [exfalso|done].
      destruct (f_rw (c :: s) (c :: sub s)) as [a' Ha'];
        [by constructor|by eexists|].
      by rewrite P_miss in Ha'.
    + apply (IH (length s)); [simpl; lia|done| |].
      * by apply (keys_clean_suffix [c]).
      * by apply (P_suffix [c]).
Qed.
End Quiet.

Lemma sub_bound_step s :
  is_Some (bound_at s) -> keys_clean s ->
  ∃ id key pre r, ident id ∧ key_shape key ∧ ¬ occurs try_call key ∧
    s = pre ++ r ∧ pre ≠ [] ∧ sub_bound s = bound_out id key ++ sub_bound r.
Proof.
  intros [[[id key] r] (Hid & Hk & ->)%bound_at_shape] Hc.
  exists id, key, (str "const " ++ id ++ try_call ++ key ++ str ")"), r.
  split; [done|]. split; [done|]. split.
  { apply (keys_clean_key (str "const " ++ id) key r); [|done].
    by rewrite <- app_assoc. }
  split; [by rewrite <- !app_assoc|]. split; [done|].
  rewrite sub_bound_hit by done. unfold bound_out. by rewrite <- !app_assoc.
Qed.

Lemma sub_discard_step s :
  is_Some (discard_at s) -> keys_clean s ->
  ∃ key pre r, key_shape key ∧ ¬ occurs try_call key ∧
    s = pre ++ r ∧ pre ≠ [] ∧ sub_discard s = discard_out key ++ sub_discard r.
Proof.
  intros [[key r] (Hk & ->)%discard_at_shape] Hc.
  exists key, (str "_" ++ try_call ++ key ++ str ")"), r.
  split; [done|]. split.
  { by apply (keys_clean_key (str "_") key r). }
  split; [by rewrite <- !app_assoc|]. split; [done|].
  rewrite sub_discard_hit by done. unfold discard_out.
  by rewrite <- !app_assoc.
Qed.

Lemma quiet_sub_bound s : keys_clean s -> quiet bound_at (sub_bound s).
Proof.
  intros Hc.
  apply (quiet_after_sub bound_at bound_at sub_bound (λ _, True));
    try done.
  - apply rw_bound_at.
  - apply rw_sub_bound.
  - apply sub_bound_miss.
  - intros s' Hs' Hc'.
    destruct (sub_bound_step s' Hs' Hc')
      as (id & key & pre & r & ? & ? & ? & ? & ? & ?).
    exists (bound_out id key), pre, r.
    repeat split; try done. by apply bound_out_inert_bound.
Qed.

Lemma quiet_sub_discard s : keys_clean s -> quiet discard_at (sub_discard s).
Proof.
  intros Hc.
  apply (quiet_after_sub discard_at discard_at sub_discard (λ _, True));
    try done.
  - apply rw_discard_at.
  - apply rw_sub_discard.
  - apply sub_discard_miss.
  - intros s' Hs' Hc'.
    destruct (sub_discard_step s' Hs' Hc')
      as (key & pre & r & ? & ? & ? & ? & ?).
    exists (discard_out key), pre, r.
    repeat split; try done. by apply discard_out_inert_discard.
Qed.

Lemma quiet_bound_sub_discard s :
  keys_clean s -> quiet bound_at s -> quiet bound_at (sub_discard s).
Proof.
  intros Hc Hq.
  apply (quiet_after_sub bound_at discard_at sub_discard (quiet bound_at));
    try done.
  - apply rw_bound_at.
  - apply rw_sub_discard.
  - apply sub_discard_miss.
  - intros s' Hs' Hc'.
    destruct (sub_discard_step s' Hs' Hc')
      as (key & pre & r & ? & ? & ? & ? & ?).
    exists (discard_out key), pre, r.
    repeat split; try done. by apply discard_out_inert_bound.
  - intros s' Hs' _. by apply quiet_head.
  - intros pre s'. apply quiet_suffix.
Qed.

Lemma sub_bound_quiet s : quiet bound_at s -> sub_bound s = s.
Proof.
  intros H. apply re_sub_no_match, re_search_None. intros pre y ->.
  by rewrite re_match_bound, (H pre y).
Qed.

Lemma sub_discard_quiet s : quiet discard_at s -> sub_discard s = s.
Proof.
  intros H. apply re_sub_no_match, re_search_None. intros pre y ->.
  by rewrite re_match_discard, (H pre y).
Qed.

Lemma fix_env_get_calls_twice s :
  keys_clean s -> fix_env_get_calls (fix_env_get_calls s) = fix_env_get_calls s.
Proof.
  intros Hc. rewrite !fix_env_get_calls_eq.
  assert (keys_clean (sub_bound s)) as Hc1.
  { eapply keys_clean_rw; [apply rw_sub_bound|done]. }
  rewrite (sub_bound_quiet (sub_discard (sub_bound s))).
  - apply sub_discard_quiet. by apply quiet_sub_discard.
  - apply quiet_bound_sub_discard; [done|]. by apply quiet_sub_bound.
Qed.

(** ** Newlines *)

Lemma open_key_suffix pre a : open_key a -> open_key (pre ++ a).
Proof.
  intros (p & q & body & -> & ? & ?). exists (pre ++ p), q, body.
  by rewrite <- app_assoc.
Qed.

Lemma open_key_rw s t : rewrites s t -> open_key t -> open_key s.
Proof.
  intros Hrw (pre & q & body & -> & Hq & Hb).
  apply rw_find_marker in Hrw as (pre' & y' & -> & Hrw).
  assert (q ≠ 32 ∧ q ≠ 41) as [H1 H2].
  { apply is_quote_spec in Hq as [-> | ->]; done. }
  apply rw_plain_inv in Hrw as (y'' & -> & Hrw); [|done..].
  exists pre', q, y''. split; [done|]. split; [done|].
  by eapply rw_quote_free.
Qed.

Lemma app_cons_cases (x y a z : text) c :
  x ++ y = a ++ c :: z ->
  (∃ k, x = a ++ c :: k ∧ z = k ++ y) ∨ (∃ k, a = x ++ k ∧ y = k ++ c :: z).
Proof.
  intros [l [[-> E]|[-> ->]]]%app_eq_app; [|right; by exists l].
  destruct l as [|d l]; cbn [app] in E.
  - right. exists []. by rewrite !app_nil_r.
  - apply cons_eq_inv in E as [-> ->]. left. by exists l.
Qed.

Lemma word_no_newline w : Forall (λ c, is_word c = true) w -> newline ∉ w.
Proof. by apply word_not_elem. Qed.

(** A call that is complete across a newline was complete before it,
    unless the newline is inside its quoted key. *)
Lemma call_at_newline a b :
  is_Some (call_at (a ++ newline :: b)) ->
  is_Some (call_at a)
  ∨ ∃ q body, a = try_call ++ q :: body ∧ is_quote q = true ∧ q ∉ body.
Proof.
  intros [[key r] [Hk E]%call_at_shape].
  apply split_at_fresh in E as (a1 & -> & E); [|fresh_lit].
  apply app_cons_cases in E as [(k & E & _)|(k & -> & E)].
  - right. destruct Hk as [q body Hq Hne Hb|w [_ Hw]].
    + assert (q ≠ newline) as Hqn.
      { by apply is_quote_spec in Hq as [-> | ->]. }
      destruct a1 as [|d a1]; cbn [app] in E;
        apply cons_eq_inv in E as [E0 E]; [done|subst d].
      apply app_cons_cases in E as [(k' & -> & _)|(k' & -> & E)].
      * exists q, a1. split; [done|]. split; [done|].
        by apply not_elem_of_app in Hb as [? _].
      * destruct k' as [|e k']; cbn [app] in E;
          apply cons_eq_inv in E as [E0 E]; [done|by destruct k'].
    + exfalso. apply (word_no_newline w Hw). rewrite E.
      apply elem_of_app. right. by left.
  - left. destruct k as [|d k]; [by revert E; unlit|].
    change (str ")" ++ r) with (41 :: r) in E. cbn [app] in E.
    apply cons_eq_inv in E as [<- _].
    exists (key, k). by apply call_at_shape.
Qed.

Lemma bound_at_newline a b :
  ¬ open_key a -> bound_at a = None -> bound_at (a ++ newline :: b) = None.
Proof.
  intros Ho Ha.
  destruct (bound_at (_ ++ _)) as [[[id key] r]|] eqn:E; [exfalso|done].
  apply bound_at_call in E as (Hid & s' & E & Hc).
  rewrite app_assoc in E.
  apply split_at_fresh in E as (a1 & -> & ->).
  2:{ apply not_elem_of_app. split; [fresh_lit|].
      apply word_no_newline, Hid. }
  destruct (call_at_newline a1 b) as [[[key' r'] Hc']|(q & body & -> & ? & ?)];
    [by eexists| |].
  - rewrite (proj2 (bound_at_call _ id key' r')) in Ha; [done|].
    split; [done|]. exists a1. by rewrite <- app_assoc.
  - apply Ho. by exists (str "const " ++ id), q, body.
Qed.

Lemma discard_at_newline a b :
  ¬ open_key a -> discard_at a = None ->
  discard_at (a ++ newline :: b) = None.
Proof.
  intros Ho Ha.
  destruct (discard_at (_ ++ _)) as [[key r]|] eqn:E; [exfalso|done].
  apply discard_at_call in E as (s' & E & Hc).
  apply split_at_fresh in E as (a1 & -> & ->); [|fresh_lit].
  destruct (call_at_newline a1 b) as [[[key' r'] Hc']|(q & body & -> & ? & ?)];
    [by eexists| |].
  - rewrite (proj2 (discard_at_call _ key' r')) in Ha; [done|]. by exists a1.
  - apply Ho. by exists (str "_"), q, body.
Qed.

(** ** Seams *)

(** The scan works on the two sides of a seam separately when no match
    that starts before the seam reaches across it. *)
Section Seam.
Context {A : Type} (f : text -> option A) (sub : text -> text).

Hypothesis sub_nil : sub [] = [].
Hypothesis sub_miss : ∀ c s, f (c :: s) = None -> sub (c :: s) = c :: sub s.
Hypothesis sub_hit : ∀ s, is_Some (f s) ->
  ∃ u pre r, s = pre ++ r ∧ pre ≠ [] ∧ ∀ x, sub (pre ++ x) = u ++ sub x.

Lemma sub_seam a x :
  (∀ a1 a2, a = a1 ++ a2 -> a2 ≠ [] -> f a2 = None -> f (a2 ++ x) = None) ->
  sub (a ++ x) = sub a ++ sub x.
Proof using unicode_alnum A f sub sub_nil sub_miss sub_hit.
  remember (length a) as n eqn:Hn. revert a Hn.
  induction n as [n IH] using lt_wf_ind. intros a -> Hx.
  destruct a as [|c a]; [by rewrite sub_nil|].
  destruct (f (c :: a)) as [y|] eqn:Ef.
  - destruct (sub_hit (c :: a)) as (u & pre & r & E & Hne & Hsub);
      [by eexists|].
    rewrite E, <- app_assoc, !Hsub, <- app_assoc. f_equal.
    apply (IH (length r)); [|done|].
    + rewrite E, length_app. destruct pre; [done|]. simpl. lia.
    + intros a1 a2 ->. apply (Hx (pre ++ a1)). by rewrite E, <- app_assoc.
  - rewrite (sub_miss c a) by done. cbn [app].
    rewrite sub_miss by (by apply (Hx [] (c :: a))). f_equal.
    apply (IH (length a)); [simpl; lia|done|].
    intros a1 a2 ->. by apply (Hx (c :: a1)).
Qed.
End Seam.

Lemma sub_bound_seam a x :
  (∀ a1 a2, a = a1 ++ a2 -> a2 ≠ [] ->
     bound_at a2 = None -> bound_at (a2 ++ x) = None) ->
  sub_bound (a ++ x) = sub_bound a ++ sub_bound x.
Proof.
  apply (sub_seam bound_at sub_bound); try done.
  - apply sub_bound_miss.
  - intros s [[[id key] r] (Hid & Hk & ->)%bound_at_shape].
    exists (bound_out id key),
      (str "const " ++ id ++ try_call ++ key ++ str ")"), r.
    split; [by rewrite <- !app_assoc|]. split; [done|].
    intros y. rewrite <- !app_assoc. rewrite sub_bound_hit by done.
    unfold bound_out. by rewrite <- !app_assoc.
Qed.

Lemma sub_discard_seam a x :
  (∀ a1 a2, a = a1 ++ a2 -> a2 ≠ [] ->
     discard_at a2 = None -> discard_at (a2 ++ x) = None) ->
  sub_discard (a ++ x) = sub_discard a ++ sub_discard x.
Proof.
  apply (sub_seam discard_at sub_discard); try done.
  - apply sub_discard_miss.
  - intros s [[key r] (Hk & ->)%discard_at_shape].
    exists (discard_out key), (str "_" ++ try_call ++ key ++ str ")"), r.
    split; [by rewrite <- !app_assoc|]. split; [done|].
    intros y. rewrite <- !app_assoc. rewrite sub_discard_hit by done.
    unfold discard_out. by rewrite <- !app_assoc.
Qed.

Lemma sub_bound_newline a b :
  ¬ open_key a ->
  sub_bound (a ++ newline :: b) = sub_bound a ++ newline :: sub_bound b.
Proof.
  intros Ho. rewrite sub_bound_seam.
  - rewrite (sub_bound_miss newline b); done.
  - intros a1 a2 -> _. apply bound_at_newline.
    intros H. apply Ho. by apply open_key_suffix.
Qed.

Lemma sub_discard_newline a b :
  ¬ open_key a ->
  sub_discard (a ++ newline :: b) =
    sub_discard a ++ newline :: sub_discard b.
Proof.
  intros Ho. rewrite sub_discard_seam.
  - rewrite (sub_discard_miss newline b); done.
  - intros a1 a2 -> _. apply discard_at_newline.
    intros H. apply Ho. by apply open_key_suffix.
Qed.

Lemma fix_env_get_calls_newline a b :
  ¬ open_key a ->
  fix_env_get_calls (a ++ newline :: b) =
    fix_env_get_calls a ++ newline :: fix_env_get_calls b.
Proof.
  intros Ho. rewrite !fix_env_get_calls_eq.
  rewrite sub_bound_newline by done. apply sub_discard_newline.
  intros H. apply Ho. eapply open_key_rw; [apply rw_sub_bound|done].
Qed.

(** ** Decidable forms of the side conditions *)

Lemma contains_unfold l s :
  contains l s =
    match strip_prefix l s with
    | Some _ => true
    | None => match s with [] => false | _ :: s' => contains l s' end
    end.
Proof. by destruct s. Qed.

Lemma contains_false l s : contains l s = false -> ¬ occurs l s.
Proof.
  intros H (pre & post & ->). induction pre as [|c pre IH].
  - rewrite contains_unfold in H. cbn [app] in H.
    by rewrite strip_prefix_app in H.
  - apply IH. rewrite contains_unfold in H. cbn [app] in H.
    by destruct (strip_prefix l (c :: pre ++ l ++ post)).
Qed.

Lemma is_ident_spec w : is_ident w = true -> ident w.
Proof.
  unfold is_ident, ident. destruct w as [|c w]; [done|].
  intros H. split; [done|]. apply Forall_forall. intros x Hx.
  rewrite forallb_forall in H. apply H. by apply list_elem_of_In.
Qed.

Lemma is_key_spec k : is_key k = true -> key_shape k.
Proof.
  unfold is_key. destruct k as [|q t]; [done|].
  destruct (is_quote q) eqn:Hq; [|intros H; by apply key_bare, is_ident_spec].
  pose proof (take_drop_while (λ c, negb (c =? q)) t) as Ht.
  pose proof (take_while_Forall (λ c, negb (c =? q)) t) as Hb.
  pose proof (drop_while_head (λ c, negb (c =? q)) t) as Hd.
  destruct (take_while _ t) as [|b body]; [done|].
  destruct (drop_while _ t) as [|d [|? ?]]; [done| |done].
  intros _. apply negb_false_iff, N.eqb_eq in Hd as ->. rewrite <- Ht.
  change (q :: (b :: body) ++ [q]) with (q :: (b :: body) ++ [q]).
  apply key_quoted; [done..|]. by apply not_elem_Forall.
Qed.

Lemma keys_cleanb_spec s : keys_cleanb s = true -> keys_clean s.
Proof.
  intros H pre q body post -> Hq Hb. induction pre as [|c pre IH].
  - cbn [app] in H.
    assert (key_clean_here (try_call ++ q :: body ++ q :: post) = true) as Hk.
    { revert H. generalize (try_call ++ q :: body ++ q :: post).
      intros [|? ?]; cbn [keys_cleanb]; by intros [? _]%andb_true_iff. }
    unfold key_clean_here in Hk. rewrite strip_prefix_app, Hq in Hk.
    destruct (take_while_app (λ c, negb (c =? q)) body (q :: post))
      as [E1 E2]; [by apply not_elem_Forall|by rewrite N.eqb_refl|].
    rewrite E1, E2 in Hk. apply negb_true_iff in Hk.
    by apply contains_false.
  - apply IH. cbn [app keys_cleanb] in H.
    by apply andb_true_iff in H as [_ ?].
Qed.

Lemma ends_in_key_spec a : ends_in_key a = false -> ¬ open_key a.
Proof.
  intros H (pre & q & body & -> & Hq & Hb). induction pre as [|c pre IH].
  - cbn [app] in H.
    assert (key_open_here (try_call ++ q :: body) = false) as Hk.
    { revert H. generalize (try_call ++ q :: body).
      intros [|? ?]; cbn [ends_in_key]; by intros [? _]%orb_false_iff. }
    unfold key_open_here in Hk. rewrite strip_prefix_app, Hq in Hk.
    destruct (take_while_app (λ c, negb (c =? q)) body [])
      as [_ E2]; [by apply not_elem_Forall|done|].
    rewrite app_nil_r in E2. by rewrite E2 in Hk.
  - apply IH. cbn [app ends_in_key] in H.
    by apply orb_false_iff in H as [_ ?].
Qed.

Lemma contains_true l s : occurs l s -> contains l s = true.
Proof.
  intros (pre & post & ->). induction pre as [|c pre IH].
  - rewrite contains_unfold. cbn [app]. by rewrite strip_prefix_app.
  - rewrite contains_unfold. cbn [app].
    by destruct (strip_prefix l (c :: pre ++ l ++ post)).
Qed.

Lemma contains_spec l s : contains l s = true <-> occurs l s.
Proof.
  split; [|apply contains_true]. intros H.
  destruct (contains l s) eqn:E; [|done]. clear H.
  induction s as [|c s IH]; rewrite contains_unfold in E.
  - destruct (strip_prefix l []) as [r|] eqn:Er; [|done].
    apply strip_prefix_Some in Er. by exists [], r.
  - destruct (strip_prefix l (c :: s)) as [r|] eqn:Er.
    + apply strip_prefix_Some in Er. by exists [], r.
    + destruct (IH E) as (pre & post & ->). by exists (c :: pre), post.
Qed.

(** ** Counting characters *)

Lemma count_char_app c a b :
  count_char c (a ++ b) = (count_char c a + count_char c b)%nat.
Proof. induction a as [|d a IH]; simpl; [done|]. rewrite IH. lia. Qed.

Lemma rw_count_newline s t :
  rewrites s t -> count_char newline t = count_char newline s.
Proof.
  induction 1 as [|c s t _ IH|s t _ IH|s t _ IH]; [done|..].
  - simpl. by rewrite IH.
  - by rewrite !count_char_app, IH.
  - by rewrite !count_char_app, IH.
Qed.

Lemma sub_const_count_newline s :
  count_char newline (sub_const s) = count_char newline s.
Proof.
  remember (length s) as n eqn:Hn. revert s Hn.
  induction n as [n IH] using lt_wf_ind. intros s ->.
  destruct (occurs_dec_const s) as [(pre & post & ->)|Hno].
  - rewrite sub_const_app, !count_char_app.
    rewrite (IH (length pre) ltac:(rewrite !length_app; unstr; simpl; lia)
               pre eq_refl).
    rewrite (IH (length post) ltac:(rewrite !length_app; unstr; simpl; lia)
               post eq_refl).
    done.
  - by rewrite sub_const_untouched.
Qed.

(** *** Matches do not reach across the start of an occurrence *)

Lemma first_split_unique (c : char) a a' z z' :
  c ∉ a -> c ∉ a' -> a ++ c :: z = a' ++ c :: z' -> a = a' ∧ z = z'.
Proof.
  revert a'. induction a as [|d a IH]; intros [|d' a'] Ha Ha' E;
    cbn [app] in E; apply cons_eq_inv in E as [E1 E].
  - done.
  - subst d'. by apply not_elem_of_cons in Ha' as [? _].
  - subst d. by apply not_elem_of_cons in Ha as [? _].
  - subst d'. apply not_elem_of_cons in Ha as [_ Ha].
    apply not_elem_of_cons in Ha' as [_ Ha'].
    destruct (IH a' Ha Ha' E) as [-> ->]. done.
Qed.

Lemma prefix_cases (l a x z : text) :
  a ++ x = l ++ z ->
  (∃ a1, a = l ++ a1 ∧ a1 ++ x = z)
  ∨ (∃ l2 c l3, l = a ++ c :: l3 ∧ l2 = c :: l3 ∧ x = l2 ++ z).
Proof.
  intros [k [[-> ->]|[-> ->]]]%app_eq_app; [left; by exists k|].
  destruct k as [|c k].
  - left. exists []. by rewrite !app_nil_r.
  - right. by exists (c :: k), c, k.
Qed.

(** [x] starts with the identifier [w0] and a space. *)
Lemma call_at_seam d w0 y :
  ident w0 -> (∀ c, head w0 = Some c -> c ∉ try_call) ->
  is_Some (call_at (d ++ w0 ++ 32 :: y)) ->
  is_Some (call_at d)
  ∨ ∃ q body, d = try_call ++ q :: body ∧ is_quote q = true ∧ q ∉ body.
Proof.
  intros [Hne Hw] Hc0 [[key r] [Hk E]%call_at_shape].
  destruct w0 as [|c0 w0]; [done|]. specialize (Hc0 c0 eq_refl).
  pose proof (Forall_inv Hw) as Hc0w. cbn [app] in E.
  apply split_at_fresh in E as (d2 & -> & E); [|done].
  destruct Hk as [q body Hq Hnb Hb|w [Hnw Hww]].
  - destruct d2 as [|d0 d3]; cbn [app] in E;
      apply cons_eq_inv in E as [E0 E].
    { subst c0. apply word_not_quote in Hc0w. congruence. }
    subst d0. rewrite <- app_assoc in E. cbn [app] in E.
    destruct (decide (q ∈ d3)) as [Hin|Hnin].
    + apply list_elem_of_split_l in Hin as (b1 & d4 & -> & Hb1).
      rewrite <- app_assoc in E. cbn [app] in E.
      apply first_split_unique in E as [-> E]; [|done..].
      destruct d4 as [|e d5]; revert E; unstr; cbn [app]; intros E;
        apply cons_eq_inv in E as [E0 E].
      { subst c0. by vm_compute in Hc0w. }
      subst e. left. exists (q :: b1 ++ [q], d5). apply call_at_shape.
      split; [by constructor|].
      cbn [app]. by rewrite <- !app_assoc.
    + right. by exists q, d3.
  - left. pose proof (take_drop_while is_word d2) as Hd2.
    pose proof (take_while_Forall is_word d2) as Hw2.
    pose proof (drop_while_head is_word d2) as Hhd.
    change (str ")" ++ r) with (41 :: r) in E.
    destruct (drop_while is_word d2) as [|e e2].
    + rewrite app_nil_r in Hd2. rewrite Hd2 in Hw2.
      change (d2 ++ c0 :: w0 ++ 32 :: y)
        with (d2 ++ (c0 :: w0) ++ 32 :: y) in E.
      rewrite app_assoc in E.
      apply word_run_unique in E as [_ E]; [done|done| |done..].
      by apply Forall_app.
    + rewrite <- Hd2, <- app_assoc in E.
      apply word_run_unique in E as [E1 E]; [|done..].
      cbn [app] in E. apply cons_eq_inv in E as [<- E].
      exists (w, e2). apply call_at_shape. split; [by constructor|].
      rewrite <- Hd2, <- E1. done.
Qed.

Lemma discard_at_seam a w0 y :
  ident w0 -> (∀ c, head w0 = Some c -> c ∉ try_call) ->
  ¬ open_key a -> a ≠ [] -> discard_at a = None ->
  discard_at (a ++ w0 ++ 32 :: y) = None.
Proof.
  intros Hw0 Hc0 Ho Hne Ha.
  destruct (discard_at (_ ++ _)) as [[key r]|] eqn:E; [exfalso|done].
  apply discard_at_call in E as (s' & E & Hc).
  destruct a as [|c1 d]; [done|]. revert E. unstr. cbn [app]. intros E.
  apply cons_eq_inv in E as [-> <-].
  destruct (call_at_seam d w0 y Hw0 Hc0) as [[[k r0] Hd]|(q & body & -> & ? & ?)];
    [by eexists| |].
  - assert (discard_at (95 :: d) = Some (k, r0)) as Hx; [|congruence].
    apply discard_at_call. by exists d.
  - apply Ho. by exists [95], q, body.
Qed.

Lemma bound_at_seam a w0 y :
  ident w0 ->
  (∀ c, head w0 = Some c -> (c ∉ try_call) ∧ (c ∉ str "onst ")) ->
  head y ≠ Some 61 ∨ ¬ (∃ w, a = str "const " ++ w
                              ∧ Forall (λ c, is_word c = true) w) ->
  ¬ open_key a -> a ≠ [] -> bound_at a = None ->
  bound_at (a ++ w0 ++ 32 :: y) = None.
Proof.
  intros Hw0 Hc0 Hy Ho Hne Ha.
  destruct (bound_at (_ ++ _)) as [[[id key] r]|] eqn:E; [exfalso|done].
  apply bound_at_call in E as ([Hnid Hid] & s' & E & Hc).
  apply prefix_cases in E as [(a1 & -> & E)|(l2 & c & l3 & El & -> & E)].
  2:{ destruct Hw0 as [? _]. destruct w0 as [|c0 w0]; [done|].
      destruct (Hc0 c0 eq_refl) as [_ Hc0']. cbn [app] in E.
      apply cons_eq_inv in E as [-> _]. apply Hc0'.
      destruct a as [|c1 a]; [done|]. revert El. unstr. cbn [app]. intros El.
      apply cons_eq_inv in El as [_ ->]. apply elem_of_app. right. by left. }
  pose proof (take_drop_while is_word a1) as Ha1.
  pose proof (take_while_Forall is_word a1) as Hw1.
  pose proof (drop_while_head is_word a1) as Hhd.
  assert (match s' with c :: _ => is_word c = false | [] => True end) as Hs'.
  { by destruct (proj1 (call_at_shape _ _ _) Hc) as [_ ->]. }
  destruct (drop_while is_word a1) as [|e e1].
  - rewrite app_nil_r in Ha1. rewrite Ha1 in Hw1. rewrite app_assoc in E.
    apply word_run_unique in E as [_ E]; [| |done..].
    2:{ apply Forall_app. split; [done|apply Hw0]. }
    destruct Hy as [Hy|Hy]; [|apply Hy; by exists a1].
    subst s'. apply call_at_shape in Hc as [_ Hc]. revert Hc. unlit.
    cbn [app]. intros Hc. apply cons_eq_inv in Hc as [_ ->]. by apply Hy.
  - rewrite <- Ha1, <- !app_assoc in E.
    apply word_run_unique in E as [E1 E]; [|done..].
    change (e :: e1 ++ w0 ++ 32 :: y) with ((e :: e1) ++ w0 ++ 32 :: y) in E.
    subst s'.
    destruct (call_at_seam (e :: e1) w0 y Hw0)
      as [[[k r0] Hd]|(q & body & Ed & ? & ?)];
      [intros c Hc'; by apply Hc0|by eexists| |].
    + assert (bound_at (str "const " ++ a1) = Some (id, k, r0)) as Hx;
        [|congruence].
      apply bound_at_call. split; [done|].
      exists (e :: e1). by rewrite <- Ha1, E1.
    + apply Ho. exists (str "const " ++ id), q, body.
      rewrite <- Ha1, E1, Ed. by rewrite <- !app_assoc.
Qed.

Lemma ends_bound_head_spec a : ends_bound_head a = true <-> bound_head_end a.
Proof.
  unfold ends_bound_head. split.
  - destruct (strip_prefix _ _) as [r|] eqn:E; [intros _|done].
    apply strip_prefix_Some in E.
    pose proof (take_drop_while is_word (rev a)) as Ha.
    pose proof (take_while_Forall is_word (rev a)) as Hw.
    rewrite E in Ha. apply (f_equal (λ l, rev l)) in Ha. cbv beta in Ha.
    rewrite rev_involutive, !rev_app_distr, rev_involutive in Ha.
    exists (rev r), (rev (take_while is_word (rev a))).
    split; [by rewrite <- app_assoc in Ha|].
    by apply Forall_rev.
  - intros (pre & w & -> & Hw). rewrite !rev_app_distr.
    destruct (take_while_app is_word (rev w) (rev (str "const ") ++ rev pre))
      as [_ E]; [|done|].
    { by apply Forall_rev. }
    rewrite <- app_assoc, E. by rewrite strip_prefix_app.
Qed.

Lemma no_equals_quiet {A} (f : text -> option A) s :
  opens f -> 61 ∉ s -> quiet f s.
Proof.
  intros Hf Hs pre y ->. destruct (f y) as [b|] eqn:E; [exfalso|done].
  destruct (Hf y ltac:(by eexists)) as (h & z & -> & _). apply Hs.
  rewrite !elem_of_app. right. right. left. unlit. set_solver.
Qed.

Lemma sub_bound_before_ident pre w0 y :
  ident w0 ->
  (∀ c, head w0 = Some c -> (c ∉ try_call) ∧ (c ∉ str "onst ")) ->
  head y ≠ Some 61 ∨ ¬ bound_head_end pre ->
  ¬ open_key pre ->
  sub_bound (pre ++ w0 ++ 32 :: y) = sub_bound pre ++ sub_bound (w0 ++ 32 :: y).
Proof.
  intros Hw0 Hc0 Hy Ho. apply sub_bound_seam. intros a1 a2 -> Hne.
  apply bound_at_seam; [done..| | |done].
  - destruct Hy as [Hy|Hy]; [by left|right]. intros (w & -> & Hw).
    apply Hy. exists a1, w. done.
  - intros H. apply Ho. by apply open_key_suffix.
Qed.

Lemma sub_discard_before_ident pre w0 y :
  ident w0 -> (∀ c, head w0 = Some c -> c ∉ try_call) -> ¬ open_key pre ->
  sub_discard (pre ++ w0 ++ 32 :: y) =
    sub_discard pre ++ sub_discard (w0 ++ 32 :: y).
Proof.
  intros Hw0 Hc0 Ho. apply sub_discard_seam. intros a1 a2 -> Hne.
  apply discard_at_seam; [done..| |done].
  intros H. apply Ho. by apply open_key_suffix.
Qed.

Lemma const_ident : ident (str "const").
Proof. split; [done|word_lit]. Qed.

Lemma const_head c :
  head (str "const") = Some c -> (c ∉ try_call) ∧ (c ∉ str "onst ").
Proof. intros [= <-]. split; fresh_lit. Qed.

Lemma underscore_ident : ident (str "_").
Proof. split; [done|word_lit]. Qed.

Lemma underscore_head c :
  head (str "_") = Some c -> (c ∉ try_call) ∧ (c ∉ str "onst ").
Proof. intros [= <-]. split; fresh_lit. Qed.

(** ** Occurrences anywhere in a text *)

Lemma fix_bound_in_context pre id key post :
  ¬ open_key pre -> ident id -> key_shape key -> ¬ occurs try_call key ->
  fix_env_get_calls
    (pre ++ str "const " ++ id ++ try_call ++ key ++ str ")" ++ post) =
  fix_env_get_calls pre
    ++ str "const " ++ id ++ plain_call ++ key ++ str ").?"
    ++ fix_env_get_calls post.
Proof.
  intros Ho Hid Hk Hno. rewrite !fix_env_get_calls_eq.
  change (str "const " ++ ?t) with (str "const" ++ 32 :: t).
  rewrite sub_bound_before_ident;
    [|apply const_ident|apply const_head| |done].
  2:{ left. destruct Hid as [? Hw]. destruct id as [|c id]; [done|].
      cbn [app head]. intros [= ->]. apply Forall_inv in Hw. done. }
  change (str "const" ++ 32 :: ?t) with (str "const " ++ t).
  rewrite sub_bound_hit by done.
  change (str "const " ++ ?t) with (str "const" ++ 32 :: t).
  rewrite sub_discard_before_ident;
    [|apply const_ident|intros c Hc; by apply const_head|].
  2:{ intros H. apply Ho. eapply open_key_rw; [apply rw_sub_bound|done]. }
  f_equal. change (str "const" ++ 32 :: ?t) with (str "const " ++ t).
  pose proof (sub_discard_inert (bound_out id key) (sub_bound post)
    (bound_out_inert_discard id key Hid Hk Hno)) as H.
  unfold bound_out in H. by rewrite <- !app_assoc in H.
Qed.

Lemma fix_bound_head pre w :
  ¬ open_key pre -> Forall (λ c, is_word c = true) w ->
  fix_env_get_calls (pre ++ str "const " ++ w) =
    fix_env_get_calls pre ++ str "const " ++ w.
Proof.
  intros Ho Hw. rewrite !fix_env_get_calls_eq.
  assert (61 ∉ str "const " ++ w) as H61.
  { apply not_elem_of_app. split; [fresh_lit|by apply word_not_elem]. }
  change (str "const " ++ ?t) with (str "const" ++ 32 :: t) in *.
  rewrite sub_bound_before_ident;
    [|apply const_ident|apply const_head| |done].
  2:{ left. destruct w as [|c w]; [done|]. cbn [head]. intros [= ->].
      apply Forall_inv in Hw. done. }
  rewrite (sub_bound_quiet (str "const" ++ 32 :: w))
    by (apply no_equals_quiet; [apply opens_bound|done]).
  rewrite sub_discard_before_ident;
    [|apply const_ident|intros c Hc; by apply const_head|].
  2:{ intros H. apply Ho. eapply open_key_rw; [apply rw_sub_bound|done]. }
  rewrite (sub_discard_quiet (str "const" ++ 32 :: w))
    by (apply no_equals_quiet; [apply opens_discard|done]).
  done.
Qed.

Lemma fix_discard_in_context pre key post :
  ¬ open_key pre -> key_shape key -> ¬ occurs try_call key ->
  fix_env_get_calls (pre ++ str "_" ++ try_call ++ key ++ str ")" ++ post) =
  fix_env_get_calls pre
    ++ str "_" ++ plain_call ++ key ++ str ").?" ++ fix_env_get_calls post.
Proof.
  intros Ho Hk Hno. destruct (ends_bound_head pre) eqn:Eh.
  - apply ends_bound_head_spec in Eh as (pre0 & w & -> & Hw).
    assert (¬ open_key pre0) as Ho0.
    { intros (p & q & body & -> & Hq & Hb). apply Ho.
      exists p, q, (body ++ str "const " ++ w).
      split; [by rewrite <- !app_assoc|]. split; [done|].
      rewrite !not_elem_of_app. split; [done|].
      apply is_quote_spec in Hq. split.
      - destruct Hq as [-> | ->]; fresh_lit.
      - apply word_not_elem; [|done]. by destruct Hq as [-> | ->]. }
    rewrite fix_bound_head by done.
    pose proof (fix_bound_in_context pre0 (w ++ str "_") key post Ho0) as H.
    rewrite <- !app_assoc in H. rewrite <- !app_assoc. apply H; [|done..].
    split; [by destruct w|]. apply Forall_app. split; [done|word_lit].
  - assert (¬ bound_head_end pre) as Hb.
    { intros H%ends_bound_head_spec. congruence. }
    rewrite !fix_env_get_calls_eq.
    change (try_call ++ ?t) with (32 :: str "= try env.get(" ++ t).
    rewrite sub_bound_before_ident;
      [|apply underscore_ident|apply underscore_head|by right|done].
    change (32 :: str "= try env.get(" ++ ?t) with (try_call ++ t).
    pose proof (sub_bound_inert (discard_in key) post
      (discard_in_inert_bound key Hk Hno)) as H.
    unfold discard_in in H. rewrite <- !app_assoc in H. rewrite H. clear H.
    change (try_call ++ ?t) with (32 :: str "= try env.get(" ++ t).
    rewrite sub_discard_before_ident;
      [|apply underscore_ident|intros c Hc; by apply underscore_head|].
    2:{ intros H. apply Ho. eapply open_key_rw; [apply rw_sub_bound|done]. }
    change (32 :: str "= try env.get(" ++ ?t) with (try_call ++ t).
    by rewrite sub_discard_hit.
Qed.

(** ** The properties of the specification *)

(** C1.  [fix_const_to_var] replaces every occurrence of
    [const env = try] by [var env = try] and leaves the rest of the text
    unchanged: an occurrence anywhere in a text is replaced and the text on
    either side of it is transformed on its own, and a text without an
    occurrence comes back as it is.  In particular
    [const env = try Env.load();] becomes [var env = try Env.load();] and
    [const config = try Config.load();] is unchanged. *)
Theorem fix_const_to_var_replaces_every_occurrence :
  (∀ pre post,
     fix_const_to_var (pre ++ str "const env = try" ++ post) =
     fix_const_to_var pre ++ str "var env = try" ++ fix_const_to_var post)
  ∧ (∀ s, contains (str "const env = try") s = false ->
          fix_const_to_var s = s)
  ∧ fix_const_to_var (str "const env = try Env.load();") =
      str "var env = try Env.load();"
  ∧ fix_const_to_var (str "const config = try Config.load();") =
      str "const config = try Config.load();".
Proof.
  split; [apply sub_const_app|]. split; [|split; by vm_compute].
  intros s H. by apply sub_const_untouched, contains_false.
Qed.

(** C4.  [fix_const_to_var] is idempotent, and its output contains no
    occurrence of [const env = try]. *)
Theorem fix_const_to_var_idempotent s :
  fix_const_to_var (fix_const_to_var s) = fix_const_to_var s
  ∧ contains (str "const env = try") (fix_const_to_var s) = false.
Proof.
  pose proof (sub_const_clean s) as H. split.
  - by apply sub_const_untouched.
  - destruct (contains _ _) eqn:E; [|done]. by apply contains_spec in E.
Qed.

(** C6.  Where the pattern of [fix_const_var.py] matches nowhere
    ([re.search] finds nothing) [fix_const_to_var] returns its input, and
    where neither pattern of [fix_tests.py] matches anywhere
    [fix_env_get_calls] returns its input; both map the empty text to the
    empty text. *)
Theorem no_match_is_identity :
  (∀ s, re_search const_env_pat s = None -> fix_const_to_var s = s)
  ∧ (∀ s, re_search bound_pat s = None -> re_search discard_pat s = None ->
          fix_env_get_calls s = s)
  ∧ fix_const_to_var [] = []
  ∧ fix_env_get_calls [] = [].
Proof.
  split; [intros s; apply re_sub_no_match|].
  split; [|by split].
  intros s H1 H2. unfold fix_env_get_calls.
  by rewrite (re_sub_no_match _ _ _ H1), (re_sub_no_match _ _ _ H2).
Qed.

(** C10.  Both transformations keep the number of newline characters of
    their input. *)
Theorem newlines_preserved s :
  count_char newline (fix_const_to_var s) = count_char newline s
  ∧ count_char newline (fix_env_get_calls s) = count_char newline s.
Proof.
  split; [apply sub_const_count_newline|].
  rewrite fix_env_get_calls_eq.
  rewrite (rw_count_newline _ _ (rw_sub_discard _)).
  apply (rw_count_newline _ _ (rw_sub_bound _)).
Qed.

(** C7.  Started with an argument vector whose length is not two (the
    script name and one argument), either script prints its usage line
    and exits with status 1; no [open] call is made and the files are as
    they were. *)
Theorem wrong_argument_count_is_usage_error (argv : list text) (w : world) :
  length argv ≠ 2%nat ->
  run (fix_const_var_main argv) w =
    (1%Z, World (w_names w) (w_files w)
            (w_stdout w ++ [str "Usage: python fix_const_var.py <file>"])
            (w_log w))
  ∧ run (fix_tests_main argv) w =
    (1%Z, World (w_names w) (w_files w)
            (w_stdout w ++ [str "Usage: python fix_tests.py <file>"])
            (w_log w)).
Proof.
  intros H. unfold run, fix_const_var_main, fix_tests_main.
  destruct (Nat.eqb_spec (length argv) 2); [done|].
  cbv [mbind io_bind print negb].
  change (encodable (str "Usage: python fix_const_var.py <file>")) with true.
  change (encodable (str "Usage: python fix_tests.py <file>")) with true.
  done.
Qed.


(** C2 (amended).  For every non-empty run of word characters [id] and
    every key accepted by the pattern (a double- or single-quoted text
    with a non-empty body free of its own quote character, or a non-empty
    run of word characters) that does not contain the marker
    [ = try env.get(], [fix_env_get_calls] rewrites an occurrence of
    [const <id> = try env.get(<key>)] into
    [const <id> = env.get(<key>).?], with [id] and [key] as they were,
    wherever the text before the occurrence does not end inside a quoted
    text that follows the marker; the text before and the text after are
    transformed on their own.  The lookup call is [env.get] only. *)
Theorem bound_form_rewritten (pre id key post : text) :
  ends_in_key pre = false ->
  is_ident id = true -> is_key key = true ->
  contains (str " = try env.get(") key = false ->
  fix_env_get_calls
    (pre ++ str "const " ++ id ++ str " = try env.get(" ++ key ++ str ")"
     ++ post) =
  fix_env_get_calls pre
    ++ str "const " ++ id ++ str " = env.get(" ++ key ++ str ").?"
    ++ fix_env_get_calls post.
Proof.
  intros Ho%ends_in_key_spec Hid%is_ident_spec Hk%is_key_spec
    Hno%contains_false.
  by apply fix_bound_in_context.
Qed.

(** C3 (amended).  For every key accepted by the pattern that does not
    contain the marker [ = try env.get(], [fix_env_get_calls] rewrites an
    occurrence of [_ = try env.get(<key>)] into [_ = env.get(<key>).?],
    with the key as it was, wherever the text before the occurrence does
    not end inside a quoted text that follows the marker; the text before
    and the text after are transformed on their own.  The lookup call is
    [env.get] only. *)
Theorem discarded_form_rewritten (pre key post : text) :
  ends_in_key pre = false ->
  is_key key = true ->
  contains (str " = try env.get(") key = false ->
  fix_env_get_calls
    (pre ++ str "_" ++ str " = try env.get(" ++ key ++ str ")" ++ post) =
  fix_env_get_calls pre
    ++ str "_" ++ str " = env.get(" ++ key ++ str ").?"
    ++ fix_env_get_calls post.
Proof.
  intros Ho%ends_in_key_spec Hk%is_key_spec Hno%contains_false.
  by apply fix_discard_in_context.
Qed.

(** C5 (amended).  A match of [fix_env_get_calls] spans a newline only
    inside a quoted key: when the text before a newline does not end
    inside a quoted text that follows the marker [ = try env.get(],
    transforming [a], newline, [b] is transforming [a], then the newline,
    then transforming [b]. *)
Theorem fix_env_get_calls_line_local (a b : text) :
  ends_in_key a = false ->
  fix_env_get_calls (a ++ newline :: b) =
    fix_env_get_calls a ++ newline :: fix_env_get_calls b.
Proof.
  intros H%ends_in_key_spec. by apply fix_env_get_calls_newline.
Qed.

(** C9 (amended).  [fix_env_get_calls] is idempotent on every text in
    which no quoted text that follows the marker [ = try env.get(]
    contains the marker again. *)
Theorem fix_env_get_calls_idempotent (s : text) :
  keys_cleanb s = true ->
  fix_env_get_calls (fix_env_get_calls s) = fix_env_get_calls s.
Proof.
  intros H%keys_cleanb_spec. by apply fix_env_get_calls_twice.
Qed.

(** ** Further properties of the code *)

(** *** The scripts by cases *)

Lemma fix_const_var_main_outcome argv w :
  run (fix_const_var_main argv) w =
    script_outcome (str "Usage: python fix_const_var.py <file>")
      fix_const_to_var argv w.
Proof.
  destruct w as [names files out log].
  unfold run, fix_const_var_main, script_outcome.
  destruct (Nat.eqb (length argv) 2); [|done].
  cbv [mbind mret io_bind io_ret read_file write_file print negb file_at
       option_bind w_names w_files w_stdout w_log].
  destruct (names !! nth 1 argv []) as [i|] eqn:Hn; [|done].
  destruct (files !! i) as [f|] eqn:Hf; [|done].
  destruct (f_readable f) eqn:Hr; [|done].
  destruct (f_text f) as [content|] eqn:Ht; [|done].
  rewrite Hn, Hf.
  destruct (f_writable f) eqn:Hw; [|by rewrite <- !app_assoc].
  rewrite Hr, <- !app_assoc. by destruct (encodable _).
Qed.

Lemma fix_tests_main_outcome argv w :
  run (fix_tests_main argv) w =
    script_outcome (str "Usage: python fix_tests.py <file>")
      fix_env_get_calls argv w.
Proof.
  destruct w as [names files out log].
  unfold run, fix_tests_main, script_outcome.
  destruct (Nat.eqb (length argv) 2); [|done].
  cbv [mbind mret io_bind io_ret read_file write_file print negb file_at
       option_bind w_names w_files w_stdout w_log].
  destruct (names !! nth 1 argv []) as [i|] eqn:Hn; [|done].
  destruct (files !! i) as [f|] eqn:Hf; [|done].
  destruct (f_readable f) eqn:Hr; [|done].
  destruct (f_text f) as [content|] eqn:Ht; [|done].
  rewrite Hn, Hf.
  destruct (f_writable f) eqn:Hw; [|by rewrite <- !app_assoc].
  rewrite Hr, <- !app_assoc. by destruct (encodable _).
Qed.

(** The ways a run can go. *)
Lemma script_outcome_cases usage fix_text argv w :
  let p := nth 1 argv [] in
  let o := script_outcome usage fix_text argv w in
  (length argv ≠ 2%nat
   ∧ o = (1%Z, World (w_names w) (w_files w) (w_stdout w ++ [usage])
                 (w_log w)))
  ∨ (length argv = 2%nat
     ∧ (file_at w p = None
        ∨ ∃ f, file_at w p = Some f
               ∧ (f_readable f = false ∨ f_text f = None))
     ∧ o = (1%Z, World (w_names w) (w_files w) (w_stdout w)
                   (w_log w ++ [OpenRead p])))
  ∨ (length argv = 2%nat
     ∧ (∃ f content, file_at w p = Some f ∧ f_readable f = true
                     ∧ f_text f = Some content ∧ f_writable f = false)
     ∧ o = (1%Z, World (w_names w) (w_files w) (w_stdout w)
                   (w_log w ++ [OpenRead p; OpenWrite p])))
  ∨ (∃ i content, rewritable argv w i content
     ∧ encodable (str "Fixed " ++ p) = false
     ∧ o = (1%Z,
            World (w_names w)
                  (<[i := File (Some (fix_text content)) true true]>
                     (w_files w))
                  (w_stdout w)
                  (w_log w ++ [OpenRead p; OpenWrite p])))
  ∨ (∃ i content, rewritable argv w i content
     ∧ encodable (str "Fixed " ++ p) = true
     ∧ o = (0%Z,
            World (w_names w)
                  (<[i := File (Some (fix_text content)) true true]>
                     (w_files w))
                  (w_stdout w ++ [str "Fixed " ++ p])
                  (w_log w ++ [OpenRead p; OpenWrite p]))).
Proof.
  cbv zeta. unfold script_outcome, rewritable, file_at.
  destruct (Nat.eqb_spec (length argv) 2) as [Hl|Hl]; cbn [negb];
    [|by left].
  right. cbv zeta.
  destruct (w_names w !! nth 1 argv []) as [i|] eqn:Hn;
    cbn [mbind option_bind]; [|left; auto].
  destruct (w_files w !! i) as [f|] eqn:Hf; [|left; auto].
  destruct (f_readable f) eqn:Hr.
  2: { left. split; [done|]. split; [|done]. right. exists f. auto. }
  destruct (f_text f) as [content|] eqn:Ht.
  2: { left. split; [done|]. split; [|done]. right. exists f. auto. }
  right. destruct (f_writable f) eqn:Hw; [|left; eauto 10].
  right. destruct (encodable _) eqn:He.
  - right. exists i, content. eauto 10.
  - left. exists i, content. eauto 10.
Qed.

Lemma script_outcome_frame usage fix_text argv w i :
  w_names w !! nth 1 argv [] ≠ Some i ->
  w_names (snd (script_outcome usage fix_text argv w)) = w_names w
  ∧ dom (w_files (snd (script_outcome usage fix_text argv w)))
    = dom (w_files w)
  ∧ w_files (snd (script_outcome usage fix_text argv w)) !! i
    = w_files w !! i.
Proof.
  intros Hi.
  destruct (script_outcome_cases usage fix_text argv w)
    as [[_ ->]|[(_ & _ & ->)|[(_ & _ & ->)|
        [(j & c & Hrw & _ & ->)|(j & c & Hrw & _ & ->)]]]]; try done.
  all: destruct Hrw as (_ & Hn & f & Hf & _); cbn [snd w_names w_files].
  all: split; [done|]; split; [by apply dom_insert_lookup_L|].
  all: apply lookup_insert_ne; congruence.
Qed.

Lemma script_outcome_again usage fix_text argv w :
  (∀ f content, file_at w (nth 1 argv []) = Some f ->
     f_text f = Some content ->
     fix_text (fix_text content) = fix_text content) ->
  fst (script_outcome usage fix_text argv
         (snd (script_outcome usage fix_text argv w)))
    = fst (script_outcome usage fix_text argv w)
  ∧ w_files (snd (script_outcome usage fix_text argv
                    (snd (script_outcome usage fix_text argv w))))
    = w_files (snd (script_outcome usage fix_text argv w)).
Proof.
  intros Hfix.
  remember (script_outcome usage fix_text argv w) as o eqn:E.
  unfold script_outcome in E. cbv zeta in E.
  destruct (negb (Nat.eqb (length argv) 2)) eqn:Hl.
  { subst o. unfold script_outcome. cbn [snd fst w_names w_files].
    by rewrite Hl. }
  destruct (w_names w !! nth 1 argv []) as [i|] eqn:Hn.
  2: { subst o. unfold script_outcome. cbn [snd fst w_names w_files].
       by rewrite Hl, Hn. }
  destruct (w_files w !! i) as [f|] eqn:Hf.
  2: { subst o. unfold script_outcome. cbn [snd fst w_names w_files].
       by rewrite Hl, Hn, Hf. }
  destruct (f_readable f) eqn:Hr.
  2: { subst o. unfold script_outcome. cbn [snd fst w_names w_files].
       by rewrite Hl, Hn, Hf, Hr. }
  destruct (f_text f) as [content|] eqn:Ht.
  2: { subst o. unfold script_outcome. cbn [snd fst w_names w_files].
       by rewrite Hl, Hn, Hf, Hr, Ht. }
  destruct (f_writable f) eqn:Hw.
  2: { subst o. unfold script_outcome. cbn [snd fst w_names w_files].
       by rewrite Hl, Hn, Hf, Hr, Ht, Hw. }
  assert (fix_text (fix_text content) = fix_text content) as Hfix'.
  { apply (Hfix f); [|done]. unfold file_at. by rewrite Hn. }
  destruct (encodable (str "Fixed " ++ nth 1 argv [])) eqn:He.
  all: subst o; unfold script_outcome; cbn [snd fst w_names w_files].
  all: rewrite Hl, Hn; cbv zeta; rewrite lookup_insert_eq.
  all: cbn [f_readable f_writable f_text snd fst w_files]; rewrite He.
  all: cbn [snd fst w_files].
  all: split; [done|]; by rewrite insert_insert_eq, Hfix'.
Qed.

(** *** The scripts and the file system *)

(** X1.  A run of either script ends with status 0 only where the
    argument vector has length two and its second entry names a file that
    can be read and written and whose bytes are valid UTF-8; the file then
    holds the transformed text, [Fixed <filepath>] has been printed, and
    the path has been opened once for reading and once for writing. *)
Theorem exit_status_zero_means_rewritten (argv : list text) (w : world) :
  (fst (run (fix_const_var_main argv) w) = 0%Z ->
   ∃ i content, rewritable argv w i content
     ∧ snd (run (fix_const_var_main argv) w) =
         World (w_names w)
           (<[i := File (Some (fix_const_to_var content)) true true]>
              (w_files w))
           (w_stdout w ++ [str "Fixed " ++ nth 1 argv []])
           (w_log w ++ [OpenRead (nth 1 argv []); OpenWrite (nth 1 argv [])]))
  ∧ (fst (run (fix_tests_main argv) w) = 0%Z ->
     ∃ i content, rewritable argv w i content
       ∧ snd (run (fix_tests_main argv) w) =
           World (w_names w)
             (<[i := File (Some (fix_env_get_calls content)) true true]>
                (w_files w))
             (w_stdout w ++ [str "Fixed " ++ nth 1 argv []])
             (w_log w
                ++ [OpenRead (nth 1 argv []); OpenWrite (nth 1 argv [])])).
Proof.
  rewrite fix_const_var_main_outcome, fix_tests_main_outcome.
  split.
  - destruct (script_outcome_cases (str "Usage: python fix_const_var.py <file>")
                fix_const_to_var argv w)
      as [[_ ->]|[(_ & _ & ->)|[(_ & _ & ->)|
          [(i & c & _ & _ & ->)|(i & c & Hrw & _ & ->)]]]]; try done.
    intros _. by exists i, c.
  - destruct (script_outcome_cases (str "Usage: python fix_tests.py <file>")
                fix_env_get_calls argv w)
      as [[_ ->]|[(_ & _ & ->)|[(_ & _ & ->)|
          [(i & c & _ & _ & ->)|(i & c & Hrw & _ & ->)]]]]; try done.
    intros _. by exists i, c.
Qed.

(** X2.  Where the path leads to no file, or to a file that cannot be
    read or whose bytes are not valid UTF-8, either script stops at the
    read: the exit status is 1, nothing is printed, no file is opened for
    writing and the files are as they were. *)
Theorem unreadable_file_is_left_alone (script filepath : text) (w : world) :
  (file_at w filepath = None
   ∨ ∃ f, file_at w filepath = Some f
          ∧ (f_readable f = false ∨ f_text f = None)) ->
  run (fix_const_var_main [script; filepath]) w =
    (1%Z, World (w_names w) (w_files w) (w_stdout w)
            (w_log w ++ [OpenRead filepath]))
  ∧ run (fix_tests_main [script; filepath]) w =
    (1%Z, World (w_names w) (w_files w) (w_stdout w)
            (w_log w ++ [OpenRead filepath])).
Proof.
  intros H. rewrite fix_const_var_main_outcome, fix_tests_main_outcome.
  unfold script_outcome. cbn [length Nat.eqb negb nth]. cbv zeta.
  unfold file_at in H.
  destruct (w_names w !! filepath) as [i|]; cbn [mbind option_bind] in H;
    [|done].
  destruct (w_files w !! i) as [f|]; [|done].
  destruct H as [H | (f' & [= <-] & [-> | Ht])]; [done|done|].
  rewrite Ht. by destruct (f_readable f).
Qed.

(** X3.  Where the named file can be read and its bytes are valid UTF-8
    but it cannot be written, either script stops at the second [open]:
    the exit status is 1, the file keeps its text, and [Fixed <filepath>]
    is not printed. *)
Theorem read_only_file_is_left_alone
    (script filepath : text) (w : world) (f : file) (content : text) :
  file_at w filepath = Some f ->
  f_readable f = true -> f_text f = Some content ->
  f_writable f = false ->
  run (fix_const_var_main [script; filepath]) w =
    (1%Z, World (w_names w) (w_files w) (w_stdout w)
            (w_log w ++ [OpenRead filepath; OpenWrite filepath]))
  ∧ run (fix_tests_main [script; filepath]) w =
    (1%Z, World (w_names w) (w_files w) (w_stdout w)
            (w_log w ++ [OpenRead filepath; OpenWrite filepath])).
Proof.
  intros Hf Hr Ht Hw.
  rewrite fix_const_var_main_outcome, fix_tests_main_outcome.
  unfold script_outcome. cbn [length Nat.eqb negb nth]. cbv zeta.
  unfold file_at in Hf.
  destruct (w_names w !! filepath) as [i|]; cbn [mbind option_bind] in Hf;
    [|done].
  by rewrite Hf, Hr, Ht, Hw.
Qed.

(** X4.  Whatever the arguments, a run of either script gives no file a
    new name and takes no name away, creates no file and removes none,
    and leaves every file as it was other than the one file that the
    second entry of the argument vector leads to. *)
Theorem only_the_named_file_changes (argv : list text) (w : world) (i : inode) :
  w_names w !! nth 1 argv [] ≠ Some i ->
  (w_names (snd (run (fix_const_var_main argv) w)) = w_names w
   ∧ dom (w_files (snd (run (fix_const_var_main argv) w))) = dom (w_files w)
   ∧ w_files (snd (run (fix_const_var_main argv) w)) !! i = w_files w !! i)
  ∧ (w_names (snd (run (fix_tests_main argv) w)) = w_names w
     ∧ dom (w_files (snd (run (fix_tests_main argv) w))) = dom (w_files w)
     ∧ w_files (snd (run (fix_tests_main argv) w)) !! i = w_files w !! i).
Proof.
  intros Hp. rewrite fix_const_var_main_outcome, fix_tests_main_outcome.
  split; by apply script_outcome_frame.
Qed.

(** X5.  Running [fix_const_var.py] a second time with the same arguments
    ends with the same exit status and leaves every file as the first run
    left it. *)
Theorem fix_const_var_main_second_run (argv : list text) (w : world) :
  let w1 := snd (run (fix_const_var_main argv) w) in
  fst (run (fix_const_var_main argv) w1) = fst (run (fix_const_var_main argv) w)
  ∧ w_files (snd (run (fix_const_var_main argv) w1)) = w_files w1.
Proof.
  cbv zeta. rewrite !fix_const_var_main_outcome.
  apply script_outcome_again. intros f content _ _.
  apply sub_const_untouched, sub_const_clean.
Qed.

(** X6.  Where the text of the named file has no quoted key that holds the
    marker [ = try env.get(], running [fix_tests.py] a second time with the
    same arguments ends with the same exit status and leaves every file as
    the first run left it. *)
Theorem fix_tests_main_second_run (argv : list text) (w : world) :
  (∀ f content, file_at w (nth 1 argv []) = Some f ->
     f_text f = Some content -> keys_cleanb content = true) ->
  let w1 := snd (run (fix_tests_main argv) w) in
  fst (run (fix_tests_main argv) w1) = fst (run (fix_tests_main argv) w)
  ∧ w_files (snd (run (fix_tests_main argv) w1)) = w_files w1.
Proof.
  intros Hk. cbv zeta. rewrite !fix_tests_main_outcome.
  apply script_outcome_again. intros f content Hf Ht.
  by apply fix_env_get_calls_twice, keys_cleanb_spec, (Hk f).
Qed.

(** *** Texts without the marker, and texts after a run *)

Lemma no_marker_quiet {A} (f : text -> option A) s :
  opens f -> ¬ occurs try_call s -> quiet f s.
Proof.
  intros Hf Hs pre y ->. destruct (f y) as [x|] eqn:E; [|done].
  destruct (Hf y) as (h & z & -> & _); [by eexists|].
  destruct Hs. exists (pre ++ h), z. by rewrite <- !app_assoc.
Qed.

Lemma quiet_re_search {A} (f : text -> option A) r (wrap : A -> caps * text) s :
  (∀ y, re_match r y = wrap <$> f y) -> quiet f s -> re_search r s = None.
Proof.
  intros Hr Hq. apply re_search_None. intros pre y ->.
  by rewrite Hr, (Hq pre y).
Qed.

(** *** Lengths *)

Lemma sub_const_length s :
  sub_const s = s ∨ (length (sub_const s) < length s)%nat.
Proof.
  remember (length s) as n eqn:Hn. revert s Hn.
  induction n as [n IH] using lt_wf_ind. intros s ->.
  destruct (occurs_dec_const s) as [(pre & post & ->)|Hno].
  - right. rewrite sub_const_app, !length_app.
    assert (length (sub_const pre) ≤ length pre)%nat as H1.
    { destruct (IH (length pre)
                  ltac:(rewrite !length_app; unstr; simpl; lia) pre eq_refl)
        as [-> | ?]; lia. }
    assert (length (sub_const post) ≤ length post)%nat as H2.
    { destruct (IH (length post)
                  ltac:(rewrite !length_app; unstr; simpl; lia) post eq_refl)
        as [-> | ?]; lia. }
    unstr. simpl. lia.
  - left. by apply sub_const_untouched.
Qed.

Lemma sub_bound_length s :
  sub_bound s = s ∨ (length (sub_bound s) < length s)%nat.
Proof.
  remember (length s) as n eqn:Hn. revert s Hn.
  induction n as [n IH] using lt_wf_ind. intros s ->.
  destruct s as [|c s]; [by left|].
  destruct (bound_at (c :: s)) as [[[id key] r]|] eqn:E.
  - right. apply bound_at_shape in E as (Hid & Hk & E). rewrite E.
    rewrite sub_bound_hit by done. rewrite !length_app.
    assert (length (sub_bound r) ≤ length r)%nat as H1.
    { destruct (IH (length r)
                  ltac:(rewrite E, !length_app; unlit; simpl; lia) r eq_refl)
        as [-> | ?]; lia. }
    unlit. simpl. lia.
  - rewrite sub_bound_miss by done.
    destruct (IH (length s) ltac:(simpl; lia) s eq_refl) as [-> | ?];
      [by left|right; simpl; lia].
Qed.

Lemma sub_discard_length s :
  sub_discard s = s ∨ (length (sub_discard s) < length s)%nat.
Proof.
  remember (length s) as n eqn:Hn. revert s Hn.
  induction n as [n IH] using lt_wf_ind. intros s ->.
  destruct s as [|c s]; [by left|].
  destruct (discard_at (c :: s)) as [[key r]|] eqn:E.
  - right. apply discard_at_shape in E as (Hk & E). rewrite E.
    rewrite sub_discard_hit by done. rewrite !length_app.
    assert (length (sub_discard r) ≤ length r)%nat as H1.
    { destruct (IH (length r)
                  ltac:(rewrite E, !length_app; unlit; simpl; lia) r eq_refl)
        as [-> | ?]; lia. }
    unlit. simpl. lia.
  - rewrite sub_discard_miss by done.
    destruct (IH (length s) ltac:(simpl; lia) s eq_refl) as [-> | ?];
      [by left|right; simpl; lia].
Qed.

(** *** Counting any character *)

Lemma count_char_absent c l : c ∉ l -> count_char c l = 0%nat.
Proof.
  induction l as [|d l IH]; [done|].
  intros [Hd Hl]%not_elem_of_cons. simpl. rewrite IH by done.
  destruct (N.eqb_spec d c); [by subst|done].
Qed.

Lemma rw_count c s t :
  c ∉ str "try .?" -> rewrites s t -> count_char c t = count_char c s.
Proof.
  change (str "try .?") with (str "try " ++ str ".?").
  intros [Ht Hu]%not_elem_of_app.
  induction 1 as [|d s t _ IH|s t _ IH|s t _ IH]; [done|..].
  - simpl. by rewrite IH.
  - change try_call with (str " = " ++ str "try " ++ str "env.get(").
    change plain_call with (str " = " ++ str "env.get(").
    rewrite !count_char_app, IH, (count_char_absent c (str "try ")) by done.
    lia.
  - change (str ").?") with (str ")" ++ str ".?").
    rewrite !count_char_app, IH, (count_char_absent c (str ".?")) by done.
    lia.
Qed.

Lemma sub_const_count c s :
  c ∉ str "constvar" -> count_char c (sub_const s) = count_char c s.
Proof.
  change (str "constvar") with (str "const" ++ str "var").
  intros [Hc Hv]%not_elem_of_app.
  remember (length s) as n eqn:Hn. revert s Hn.
  induction n as [n IH] using lt_wf_ind. intros s ->.
  destruct (occurs_dec_const s) as [(pre & post & ->)|Hno].
  - rewrite sub_const_app, !count_char_app.
    rewrite (IH (length pre) ltac:(rewrite !length_app; unstr; simpl; lia)
               pre eq_refl).
    rewrite (IH (length post) ltac:(rewrite !length_app; unstr; simpl; lia)
               post eq_refl).
    change (str "var env = try") with (str "var" ++ str " env = try").
    change (str "const env = try") with (str "const" ++ str " env = try").
    rewrite !count_char_app, (count_char_absent c (str "var")),
      (count_char_absent c (str "const")) by done.
    done.
  - by rewrite sub_const_untouched.
Qed.

(** *** [fix_const_to_var] on the two sides of a character *)

Lemma sub_const_seam (c : char) a b :
  c ∉ str "const env = try" ->
  sub_const (a ++ c :: b) = sub_const a ++ c :: sub_const b.
Proof.
  intros Hc.
  rewrite (sub_seam (strip_prefix (str "const env = try")) sub_const).
  - rewrite (sub_const_miss c b); [done|].
    destruct (strip_prefix _ (c :: b)) as [r|] eqn:E; [|done].
    apply strip_prefix_Some in E. destruct Hc. unstr.
    apply cons_eq_inv in E as [-> _]. constructor.
  - apply sub_const_nil.
  - apply sub_const_miss.
  - intros s [r ->%strip_prefix_Some].
    exists (str "var env = try"), (str "const env = try"), r.
    split; [done|]. split; [done|].
    intros x. apply sub_const_hit.
  - intros a1 a2 -> Hne Ha.
    destruct (strip_prefix _ (a2 ++ c :: b)) as [r|] eqn:E; [|done].
    apply strip_prefix_Some in E.
    destruct (split_at_fresh c _ _ _ _ Hc E) as (a' & -> & _).
    by rewrite strip_prefix_app in Ha.
Qed.

(** *** The transformations on texts *)

(** X7.  What the two patterns of [fix_tests.py] accept at a position: the
    first exactly the texts that start with [const ], a non-empty run of
    word characters, [ = try env.get(], a key and [)], the second exactly
    those that start with [_ = try env.get(], a key and [)], where a key
    is a double- or single-quoted text with a non-empty body free of its
    own quote character, or a non-empty run of word characters; the groups
    hold the name and the key. *)
Theorem patterns_accept (s r : text) (g : caps) :
  (re_match bound_pat s = Some (g, r) <->
   ∃ id key, ident id ∧ key_shape key
     ∧ s = str "const " ++ id ++ str " = try env.get(" ++ key ++ str ")" ++ r
     ∧ g = [(2%nat, key); (1%nat, id)])
  ∧ (re_match discard_pat s = Some (g, r) <->
     ∃ key, key_shape key
       ∧ s = str "_ = try env.get(" ++ key ++ str ")" ++ r
       ∧ g = [(1%nat, key)]).
Proof.
  rewrite re_match_bound, re_match_discard. split; split.
  - destruct (bound_at s) as [[[id key] r']|] eqn:E; [|done].
    cbn. intros [= <- <-]. exists id, key.
    apply bound_at_shape in E as (? & ? & ?). done.
  - intros (id & key & Hid & Hk & E & ->).
    by rewrite (proj2 (bound_at_shape s id key r)).
  - destruct (discard_at s) as [[key r']|] eqn:E; [|done].
    cbn. intros [= <- <-]. exists key.
    apply discard_at_shape in E as (? & ?). done.
  - intros (key & Hk & E & ->).
    by rewrite (proj2 (discard_at_shape s key r)).
Qed.

(** X8.  A text that does not contain [ = try env.get(] is returned by
    [fix_env_get_calls] as it is. *)
Theorem no_marker_is_identity (s : text) :
  contains (str " = try env.get(") s = false -> fix_env_get_calls s = s.
Proof.
  intros H%contains_false. rewrite fix_env_get_calls_eq.
  rewrite (sub_bound_quiet s) by (by apply no_marker_quiet, H; apply opens_bound).
  apply sub_discard_quiet. by apply no_marker_quiet; [apply opens_discard|].
Qed.

(** X9.  Where no quoted key of the text holds the marker
    [ = try env.get(], neither pattern of [fix_tests.py] matches anywhere
    in the output of [fix_env_get_calls]: no rewritable form is left. *)
Theorem no_form_is_left (s : text) :
  keys_cleanb s = true ->
  re_search bound_pat (fix_env_get_calls s) = None
  ∧ re_search discard_pat (fix_env_get_calls s) = None.
Proof.
  intros Hc%keys_cleanb_spec. rewrite fix_env_get_calls_eq.
  assert (keys_clean (sub_bound s)) as Hc1.
  { eapply keys_clean_rw; [apply rw_sub_bound|done]. }
  split.
  - eapply quiet_re_search; [apply re_match_bound|].
    apply quiet_bound_sub_discard; [done|]. by apply quiet_sub_bound.
  - eapply quiet_re_search; [apply re_match_discard|].
    by apply quiet_sub_discard.
Qed.

(** X10.  Neither transformation makes a text longer, and an output as
    long as the input is the input: every replacement shortens the
    text. *)
Theorem output_is_shorter_or_equal (s : text) :
  (fix_const_to_var s = s ∨ (length (fix_const_to_var s) < length s)%nat)
  ∧ (fix_env_get_calls s = s
     ∨ (length (fix_env_get_calls s) < length s)%nat).
Proof.
  split; [apply sub_const_length|]. rewrite fix_env_get_calls_eq.
  destruct (sub_bound_length s) as [E|H1],
    (sub_discard_length (sub_bound s)) as [E'|H2].
  - left. by rewrite E', E.
  - right. rewrite E in H2 |- *. done.
  - right. by rewrite E'.
  - right. lia.
Qed.

(** X11.  [fix_const_to_var] keeps the number of occurrences of every
    character that is not a letter of [const] or of [var]. *)
Theorem fix_const_to_var_keeps_other_characters (c : char) (s : text) :
  c ∉ str "constvar" ->
  count_char c (fix_const_to_var s) = count_char c s.
Proof. apply sub_const_count. Qed.

(** X12.  [fix_env_get_calls] keeps the number of occurrences of every
    character other than the letters of [try], the space, the dot and the
    question mark: parentheses, quotes, braces and semicolons stay
    balanced as they were. *)
Theorem fix_env_get_calls_keeps_other_characters (c : char) (s : text) :
  c ∉ str "try .?" ->
  count_char c (fix_env_get_calls s) = count_char c s.
Proof.
  intros Hc. rewrite fix_env_get_calls_eq.
  rewrite (rw_count c _ _ Hc (rw_sub_discard _)).
  apply (rw_count c _ _ Hc (rw_sub_bound _)).
Qed.

(** X13.  [fix_const_to_var] works on the two sides of any character that
    does not occur in [const env = try] on their own; a newline is such a
    character, so the text is transformed line by line. *)
Theorem fix_const_to_var_splits_at (c : char) (a b : text) :
  c ∉ str "const env = try" ->
  fix_const_to_var (a ++ c :: b) =
    fix_const_to_var a ++ c :: fix_const_to_var b.
Proof. apply sub_const_seam. Qed.

Lemma script_outcome_log usage fix_text argv w :
  let p := nth 1 argv [] in
  ∃ l, w_log (snd (script_outcome usage fix_text argv w)) = w_log w ++ l
       ∧ (l = [] ∨ l = [OpenRead p] ∨ l = [OpenRead p; OpenWrite p]).
Proof.
  cbv zeta.
  destruct (script_outcome_cases usage fix_text argv w)
    as [[_ ->]|[(_ & _ & ->)|[(_ & _ & ->)|
        [(i & c & _ & _ & ->)|(i & c & _ & _ & ->)]]]];
    cbn [snd w_log].
  - exists []. rewrite app_nil_r. auto.
  - eexists. split; [done|]. auto.
  - eexists. split; [done|]. auto.
  - eexists. split; [done|]. auto.
  - eexists. split; [done|]. auto.
Qed.

(** X14.  Whatever the arguments, a run of either script opens no path
    other than the second entry of the argument vector, opens it for
    writing only after it has opened it for reading, and opens it at most
    once each way. *)
Theorem only_the_named_file_is_opened (argv : list text) (w : world) :
  (∃ l, w_log (snd (run (fix_const_var_main argv) w)) = w_log w ++ l
        ∧ (l = [] ∨ l = [OpenRead (nth 1 argv [])]
           ∨ l = [OpenRead (nth 1 argv []); OpenWrite (nth 1 argv [])]))
  ∧ (∃ l, w_log (snd (run (fix_tests_main argv) w)) = w_log w ++ l
          ∧ (l = [] ∨ l = [OpenRead (nth 1 argv [])]
             ∨ l = [OpenRead (nth 1 argv []); OpenWrite (nth 1 argv [])])).
Proof.
  rewrite fix_const_var_main_outcome, fix_tests_main_outcome.
  split; apply script_outcome_log.
Qed.

(** X15.  The output of [fix_env_get_calls] arises from its input in two
    passes over the text, each of which copies the characters in order
    and does nothing else than write [ = env.get(] for an occurrence of
    [ = try env.get(] and [).?] for a closing parenthesis. *)
Theorem fix_env_get_calls_edits_only_calls (s : text) :
  ∃ t, rewrites s t ∧ rewrites t (fix_env_get_calls s).
Proof.
  exists (sub_bound s). split; [apply rw_sub_bound|].
  rewrite fix_env_get_calls_eq. apply rw_sub_discard.
Qed.

End Re.

(** ** Concrete runs *)

Lemma fix_const_to_var_untouched_run :
  contains (str "const env = try") (str "const config = try Config.load();")
    = false
  ∧ fix_const_to_var ascii_only (str "const config = try Config.load();")
    = str "const config = try Config.load();".
Proof.
  split; [reflexivity|].
  apply (proj1 (proj2 (fix_const_to_var_replaces_every_occurrence ascii_only))).
  reflexivity.
Defined.

Lemma no_match_run :
  re_search ascii_only (bound_pat) (str "var env = try Env.load();") = None
  ∧ re_search ascii_only (discard_pat) (str "var env = try Env.load();")
    = None
  ∧ fix_env_get_calls ascii_only (str "var env = try Env.load();")
    = str "var env = try Env.load();".
Proof.
  split; [reflexivity|]. split; [reflexivity|].
  apply (proj1 (proj2 (no_match_is_identity ascii_only))); reflexivity.
Defined.

Lemma usage_error_run :
  length [str "fix_tests.py"] ≠ 2%nat
  ∧ run (fix_tests_main ascii_only utf8_stdout [str "fix_tests.py"]) (World ∅ ∅ [] []) =
      (1%Z, World ∅ ∅ [str "Usage: python fix_tests.py <file>"] []).
Proof.
  split; [discriminate|].
  apply (proj2 (wrong_argument_count_is_usage_error ascii_only utf8_stdout
                  [str "fix_tests.py"] (World ∅ ∅ [] [])
                  ltac:(discriminate))).
Defined.


Lemma bound_form_run :
  ends_in_key (str "    ") = false
  ∧ is_ident ascii_only (str "apiKey") = true
  ∧ is_key ascii_only (dq (str "API_KEY")) = true
  ∧ contains (str " = try env.get(") (dq (str "API_KEY")) = false
  ∧ fix_env_get_calls ascii_only
      (str "    const apiKey = try env.get(" ++ dq (str "API_KEY")
       ++ str ");")
    = str "    const apiKey = env.get(" ++ dq (str "API_KEY") ++ str ").?;"
  ∧ fix_env_get_calls ascii_only (str "const val = try env.get(keyVar)")
    = str "const val = env.get(keyVar).?".
Proof.
  split; [reflexivity|]. split; [reflexivity|]. split; [reflexivity|].
  split; [reflexivity|]. split.
  - exact (bound_form_rewritten ascii_only (str "    ") (str "apiKey")
             (dq (str "API_KEY")) (str ";") eq_refl eq_refl eq_refl eq_refl).
  - exact (bound_form_rewritten ascii_only [] (str "val") (str "keyVar") []
             eq_refl eq_refl eq_refl eq_refl).
Defined.

Lemma discarded_form_run :
  ends_in_key (str "    ") = false
  ∧ is_key ascii_only (sq (str "DEBUG")) = true
  ∧ contains (str " = try env.get(") (sq (str "DEBUG")) = false
  ∧ fix_env_get_calls ascii_only
      (str "    _ = try env.get(" ++ sq (str "DEBUG") ++ str ");")
    = str "    _ = env.get(" ++ sq (str "DEBUG") ++ str ").?;".
Proof.
  split; [reflexivity|]. split; [reflexivity|]. split; [reflexivity|].
  exact (discarded_form_rewritten ascii_only (str "    ") (sq (str "DEBUG"))
           (str ";") eq_refl eq_refl eq_refl).
Defined.

Lemma line_local_run :
  let a := str "const a = try env.get(" ++ dq (str "A") ++ str ");" in
  let b := str "_ = try env.get(b);" in
  ends_in_key a = false
  ∧ fix_env_get_calls ascii_only (a ++ newline :: b) =
      fix_env_get_calls ascii_only a
        ++ newline :: fix_env_get_calls ascii_only b.
Proof.
  intros a b. split; [reflexivity|].
  exact (fix_env_get_calls_line_local ascii_only a b eq_refl).
Defined.

Lemma idempotent_run :
  let s := str "const a = try env.get(" ++ dq (str "A") ++ str ");"
           ++ newline :: str "_ = try env.get(" ++ sq (str "B") ++ str ");" in
  keys_cleanb s = true
  ∧ fix_env_get_calls ascii_only (fix_env_get_calls ascii_only s) =
      fix_env_get_calls ascii_only s.
Proof.
  intros s. split; [reflexivity|].
  exact (fix_env_get_calls_idempotent ascii_only s eq_refl).
Defined.

(** *** Where the claims of the specification fail *)

(** C2 as stated fails: a lookup call other than [env.get] is not
    rewritten, an empty string literal is not accepted as a key, and a key
    that contains the discarded form is rewritten inside. *)
Lemma bound_form_counterexample :
  fix_env_get_calls ascii_only
    (str "const x = try cfg.get(" ++ dq (str "K") ++ str ")")
  ≠ str "const x = cfg.get(" ++ dq (str "K") ++ str ").?"
  ∧ fix_env_get_calls ascii_only
      (str "const x = try env.get(" ++ dq [] ++ str ")")
    ≠ str "const x = env.get(" ++ dq [] ++ str ").?"
  ∧ fix_env_get_calls ascii_only
      (str "const a = try env.get(" ++ dq (str "_ = try env.get(x)")
       ++ str ")")
    ≠ str "const a = env.get(" ++ dq (str "_ = try env.get(x)") ++ str ").?".
Proof. repeat split; vm_compute; discriminate. Qed.

(** C3 as stated fails: a lookup call other than [env.get] is not
    rewritten, and a key that contains the bound form is rewritten
    inside. *)
Lemma discarded_form_counterexample :
  fix_env_get_calls ascii_only
    (str "_ = try cfg.get(" ++ sq (str "DEBUG") ++ str ")")
  ≠ str "_ = cfg.get(" ++ sq (str "DEBUG") ++ str ").?"
  ∧ fix_env_get_calls ascii_only
      (str "_ = try env.get(" ++ sq (str "const a = try env.get(x)")
       ++ str ")")
    ≠ str "_ = env.get(" ++ sq (str "const a = try env.get(x)") ++ str ").?".
Proof. repeat split; vm_compute; discriminate. Qed.

(** C5 as stated fails: a quoted key may contain a newline, and the match
    then spans two lines. *)
Lemma line_local_counterexample :
  let a := str "const x = try env.get(" ++ dquote :: str "A" in
  let b := str "B" ++ dquote :: str ")" in
  fix_env_get_calls ascii_only (a ++ newline :: b)
  ≠ fix_env_get_calls ascii_only a
      ++ newline :: fix_env_get_calls ascii_only b.
Proof. vm_compute. discriminate. Qed.

(** C9 as stated fails: a key that contains the bound form is carried
    through by the first run and rewritten by the second. *)
Lemma idempotent_counterexample :
  let s := str "const a = try env.get("
           ++ dq (str "const b = try env.get(x)") ++ str ")" in
  fix_env_get_calls ascii_only (fix_env_get_calls ascii_only s)
  ≠ fix_env_get_calls ascii_only s.
Proof. vm_compute. discriminate. Qed.


(** *** Further runs *)

Lemma exit_zero_run :
  let f := File (Some (str "const a = try env.get(a);")) true true in
  let w := World {[ str "main.zig" := 1%positive ]} {[ 1%positive := f ]}
             [] [] in
  let argv := [str "fix_tests.py"; str "main.zig"] in
  fst (run (fix_tests_main ascii_only utf8_stdout argv) w) = 0%Z
  ∧ ∃ i content, rewritable argv w i content
      ∧ snd (run (fix_tests_main ascii_only utf8_stdout argv) w) =
          World (w_names w)
            (<[i := File (Some (fix_env_get_calls ascii_only content))
                      true true]> (w_files w))
            (w_stdout w ++ [str "Fixed " ++ nth 1 argv []])
            (w_log w
               ++ [OpenRead (nth 1 argv []); OpenWrite (nth 1 argv [])]).
Proof.
  intros f w argv.
  assert (fst (run (fix_tests_main ascii_only utf8_stdout argv) w) = 0%Z) as H.
  { vm_compute. reflexivity. }
  split; [exact H|].
  exact (proj2 (exit_status_zero_means_rewritten ascii_only utf8_stdout argv w) H).
Defined.

Lemma missing_file_run :
  let w := World ∅ ∅ [] [] in
  (file_at w (str "main.zig") = None
   ∨ ∃ f, file_at w (str "main.zig") = Some f
          ∧ (f_readable f = false ∨ f_text f = None))
  ∧ run (fix_tests_main ascii_only utf8_stdout [str "fix_tests.py"; str "main.zig"]) w =
      (1%Z, World ∅ ∅ [] [OpenRead (str "main.zig")]).
Proof.
  intros w.
  assert (file_at w (str "main.zig") = None
          ∨ ∃ f, file_at w (str "main.zig") = Some f
                 ∧ (f_readable f = false ∨ f_text f = None)) as H.
  { left. reflexivity. }
  split; [exact H|].
  exact (proj2 (unreadable_file_is_left_alone ascii_only utf8_stdout
                  (str "fix_tests.py") (str "main.zig") w H)).
Defined.

Lemma read_only_file_run :
  let f := File (Some (str "const env = try Env.load();")) true false in
  let w := World {[ str "main.zig" := 1%positive ]} {[ 1%positive := f ]}
             [] [] in
  file_at w (str "main.zig") = Some f
  ∧ f_readable f = true
  ∧ f_text f = Some (str "const env = try Env.load();")
  ∧ f_writable f = false
  ∧ run (fix_const_var_main ascii_only utf8_stdout [str "fix_const_var.py"; str "main.zig"])
        w =
      (1%Z,
       World (w_names w) (w_files w) []
             [OpenRead (str "main.zig"); OpenWrite (str "main.zig")]).
Proof.
  intros f w. assert (file_at w (str "main.zig") = Some f) as Hf.
  { vm_compute. reflexivity. }
  split; [exact Hf|]. split; [reflexivity|]. split; [reflexivity|].
  split; [reflexivity|].
  exact (proj1 (read_only_file_is_left_alone ascii_only utf8_stdout
                  (str "fix_const_var.py") (str "main.zig") w f
                  (str "const env = try Env.load();")
                  Hf eq_refl eq_refl eq_refl)).
Defined.

Lemma other_file_run :
  let f := File (Some (str "const env = try Env.load();")) true true in
  let g := File (Some (str "const env = try Env.load();")) true true in
  let w := World (<[ str "build.zig" := 2%positive ]>
                    {[ str "main.zig" := 1%positive ]})
                 (<[ 2%positive := g ]> {[ 1%positive := f ]}) [] [] in
  let argv := [str "fix_const_var.py"; str "main.zig"] in
  w_names w !! nth 1 argv [] ≠ Some 2%positive
  ∧ w_names (snd (run (fix_const_var_main ascii_only utf8_stdout argv) w)) = w_names w
  ∧ dom (w_files (snd (run (fix_const_var_main ascii_only utf8_stdout argv) w)))
    = dom (w_files w)
  ∧ w_files (snd (run (fix_const_var_main ascii_only utf8_stdout argv) w)) !! 2%positive
    = w_files w !! 2%positive.
Proof.
  intros f g w argv.
  assert (w_names w !! nth 1 argv [] ≠ Some 2%positive) as Hp.
  { intros E. vm_compute in E. discriminate E. }
  split; [exact Hp|].
  exact (proj1 (only_the_named_file_changes ascii_only utf8_stdout argv w 2%positive Hp)).
Defined.

Lemma fix_tests_twice_run :
  let f := File (Some (str "const a = try env.get(a);")) true true in
  let w := World {[ str "main.zig" := 1%positive ]} {[ 1%positive := f ]}
             [] [] in
  let argv := [str "fix_tests.py"; str "main.zig"] in
  let w1 := snd (run (fix_tests_main ascii_only utf8_stdout argv) w) in
  (∀ f' content, file_at w (nth 1 argv []) = Some f' ->
     f_text f' = Some content -> keys_cleanb content = true)
  ∧ fst (run (fix_tests_main ascii_only utf8_stdout argv) w1) =
      fst (run (fix_tests_main ascii_only utf8_stdout argv) w)
  ∧ w_files (snd (run (fix_tests_main ascii_only utf8_stdout argv) w1)) = w_files w1.
Proof.
  intros f w argv w1.
  assert (∀ f' content, file_at w (nth 1 argv []) = Some f' ->
            f_text f' = Some content -> keys_cleanb content = true) as Hk.
  { intros f' content Hf' Ht. vm_compute in Hf'. injection Hf' as <-.
    injection Ht as <-. reflexivity. }
  split; [exact Hk|].
  exact (fix_tests_main_second_run ascii_only utf8_stdout argv w Hk).
Defined.

Lemma no_marker_run :
  contains (str " = try env.get(") (str "const port = env.get(port).?;")
    = false
  ∧ fix_env_get_calls ascii_only (str "const port = env.get(port).?;")
    = str "const port = env.get(port).?;".
Proof.
  split; [reflexivity|].
  exact (no_marker_is_identity ascii_only
           (str "const port = env.get(port).?;") eq_refl).
Defined.

Lemma no_form_left_run :
  let s := str "const a = try env.get(" ++ dq (str "A") ++ str ");"
           ++ newline :: str "_ = try env.get(" ++ sq (str "B") ++ str ");" in
  keys_cleanb s = true
  ∧ re_search ascii_only bound_pat (fix_env_get_calls ascii_only s) = None
  ∧ re_search ascii_only discard_pat (fix_env_get_calls ascii_only s) = None.
Proof.
  intros s. split; [reflexivity|].
  exact (no_form_is_left ascii_only s eq_refl).
Defined.

Lemma semicolons_kept_run :
  (59 ∉ str "constvar")
  ∧ count_char 59
      (fix_const_to_var ascii_only (str "const env = try Env.load();"))
    = count_char 59 (str "const env = try Env.load();").
Proof.
  assert (59 ∉ str "constvar") as H.
  { intros E. vm_compute in E.
    repeat (apply elem_of_cons in E as [E|E]; [discriminate E|]).
    by apply elem_of_nil in E. }
  split; [exact H|].
  exact (fix_const_to_var_keeps_other_characters ascii_only 59
           (str "const env = try Env.load();") H).
Defined.

Lemma parentheses_kept_run :
  (41 ∉ str "try .?")
  ∧ count_char 41
      (fix_env_get_calls ascii_only (str "const a = try env.get(a);"))
    = count_char 41 (str "const a = try env.get(a);").
Proof.
  assert (41 ∉ str "try .?") as H.
  { intros E. vm_compute in E.
    repeat (apply elem_of_cons in E as [E|E]; [discriminate E|]).
    by apply elem_of_nil in E. }
  split; [exact H|].
  exact (fix_env_get_calls_keeps_other_characters ascii_only 41
           (str "const a = try env.get(a);") H).
Defined.

Lemma two_lines_run :
  let a := str "const env = try Env.load();" in
  let b := str "const env = try Env.init();" in
  (newline ∉ str "const env = try")
  ∧ fix_const_to_var ascii_only (a ++ newline :: b) =
      fix_const_to_var ascii_only a
        ++ newline :: fix_const_to_var ascii_only b.
Proof.
  intros a b. assert (newline ∉ str "const env = try") as H.
  { intros E. vm_compute in E.
    repeat (apply elem_of_cons in E as [E|E]; [discriminate E|]).
    by apply elem_of_nil in E. }
  split; [exact H|].
  exact (fix_const_to_var_splits_at ascii_only newline a b H).
Defined.
